(** * Deduplication by iterator sorting: [iterator_sorting.h]

    A shallow embedding of the four function templates of
    [namespace iterator_sorting] and of the standard algorithms they call,
    followed by the properties of the specification.

    - Iterators into the caller's container are positions ([nat]) into the
      container storage, a [list T].
    - Code that touches the container storage lives in a small state monad
      [M T] over that storage, with the two primitives the header uses:
      [deref] (the [*it] of the comparison lambdas) and [iter_swap].
    - The vector of iterators [v] that the functions build is a local value
      and is threaded as a pure list. *)

From stdpp Require Import base list sorting gmap.

Set Default Proof Using "Type".

(** ** The container monad *)

Definition M (T A : Type) : Type := list T → A * list T.

Definition ret {T A} (x : A) : M T A := λ m, (x, m).

Definition bind {T A B} (k : A → M T B) (c : M T A) : M T B :=
  λ m, k (c m).1 (c m).2.

(** stdpp's notations [x ← c; k] and [c;; k] for this monad. *)
Global Instance M_ret {T} : MRet (M T) := @ret T.
Global Instance M_bind {T} : MBind (M T) := @bind T.

(** Exposes the storage passing behind the notations. *)
Ltac unfold_bind := unfold mbind, M_bind, bind.

(** [*it]: reading through an iterator. *)
Definition deref {T} `{!Inhabited T} (it : nat) : M T T :=
  λ m, (m !!! it, m).

(** [std::iter_swap(a, b)]: exchanges the two referenced elements. *)
Definition iter_swap {T} `{!Inhabited T} (a b : nat) : M T unit :=
  λ m, (tt, <[b := m !!! a]> (<[a := m !!! b]> m)).

(** A computation is read-only when it hands the storage back as it got it. *)
Definition read_only {T A} (c : M T A) : Prop := ∀ m, (c m).2 = m.

(** ** Requirements on the caller's predicates *)

(** [Compare] requirements of the standard library: a strict weak ordering. *)
Record StrictWeakOrder {A} (lt : A → A → bool) : Prop := {
  swo_irrefl : ∀ x, lt x x = false;
  swo_trans : ∀ x y z, lt x y = true → lt y z = true → lt x z = true;
  swo_incomp : ∀ x y z,
    lt x y = false → lt y x = false → lt y z = false → lt z y = false →
    lt x z = false ∧ lt z x = false
}.

(** The equality predicate agrees with the comparator: two values are equal
    exactly when neither is less than the other. *)
Record Consistent {A} (comp eq : A → A → bool) : Prop := {
  cons_swo : StrictWeakOrder comp;
  cons_eq : ∀ x y, eq x y = negb (comp x y) && negb (comp y x)
}.

(** ** The standard algorithms *)

(** *** [std::sort]

    The standard fixes the result of [std::sort] only up to the order of
    equivalent elements.  An implementation is any function that, for a
    strict weak ordering, returns a sorted rearrangement of its input. *)
Record StdSort : Type := {
  sort_fn : ∀ A : Type, (A → A → bool) → list A → list A;
  sort_fn_perm : ∀ A (lt : A → A → bool) l,
    StrictWeakOrder lt → sort_fn A lt l ≡ₚ l;
  sort_fn_sorted : ∀ A (lt : A → A → bool) l,
    StrictWeakOrder lt →
    StronglySorted (λ a b, lt b a = false) (sort_fn A lt l)
}.

(** [std::sort(first, last, cmp)] with a comparator that reads the container:
    the comparator is evaluated on the storage of the moment and the
    algorithm writes to the sorted sequence only. *)
Definition std_sort {T A} (S : StdSort) (cmp : A → A → M T bool)
    (l : list A) : M T (list A) :=
  λ m, (sort_fn S A (λ a b, (cmp a b m).1) l, m).

(** *** [std::stable_sort]

    For a strict weak ordering, which is what the standard requires of the
    comparator, the result of a stable sort is determined by its input; it
    is modelled by insertion from the right, where an element is placed in
    front of the first element that is not less than it.  For other
    comparators the standard does not fix the result and implementations
    differ from this definition: every theorem about the code that runs
    the stable sort assumes a strict weak ordering. *)
Fixpoint stable_insert {T A} (cmp : A → A → M T bool) (x : A) (l : list A)
    : M T (list A) :=
  match l with
  | [] => ret [x]
  | y :: l' =>
      b ← cmp y x;
      if (b : bool) then (r ← stable_insert cmp x l'; ret (y :: r))
      else ret (x :: y :: l')
  end.

Fixpoint std_stable_sort {T A} (cmp : A → A → M T bool) (l : list A)
    : M T (list A) :=
  match l with
  | [] => ret []
  | x :: l' => s ← std_stable_sort cmp l'; stable_insert cmp x s
  end.

(** *** [std::unique]

    Keeps the first element of every run of consecutive elements that the
    predicate calls equal; each candidate is compared with the element kept
    last.  The result is the sequence after compaction (the positions past
    the new end keep what they held) and the new end. *)
Fixpoint unique_from {T A} (pred : A → A → M T bool) (kept : A) (l : list A)
    : M T (list A) :=
  match l with
  | [] => ret [kept]
  | x :: l' =>
      b ← pred kept x;
      if (b : bool) then unique_from pred kept l'
      else (r ← unique_from pred x l'; ret (kept :: r))
  end.

Definition std_unique {T A} (pred : A → A → M T bool) (v : list A)
    : M T (list A * nat) :=
  match v with
  | [] => ret ([], 0)
  | x :: l =>
      k ← unique_from pred x l;
      ret (k ++ drop (length k) v, length k)
  end.

(** [v.erase(first, last)] on a vector. *)
Definition vector_erase {A} (v : list A) (first last : nat) : list A :=
  take first v ++ drop last v.

(** ** The header *)

Section iterator_sorting.
Context {T : Type} `{!Inhabited T}.

(** The lambdas that lift [comp] and [equalPred] from values to iterators:
    both arguments are dereferenced and the predicate is applied to the
    referenced values. *)
Definition by_value (f : T → T → bool) (a b : nat) : M T bool :=
  x ← deref a; y ← deref b; ret (f x y).

(** [operator<] on iterators. *)
Definition it_less (a b : nat) : M T bool := ret (a <? b).

(** [for (It it = begin; it != end; ++it) v.push_back(it);]
    The first argument counts the iterations left, [std::distance(it, end)]. *)
Fixpoint push_back_range (n : nat) (it : nat) (v : list nat) : list nat :=
  match n with
  | 0 => v
  | S n' => push_back_range n' (S it) (v ++ [it])
  end.

Definition unstable_unique_iterators (S : StdSort)
    (comp equalPred : T → T → bool) (begin end_ : nat) : M T (list nat) :=
  let v := push_back_range (end_ - begin) begin [] in
  v ← std_sort S (by_value comp) v;
  u ← std_unique (by_value equalPred) v;
  let v := vector_erase u.1 u.2 (length u.1) in
  v ← std_sort S it_less v;
  ret v.

Definition stable_unique_iterators (S : StdSort)
    (comp equalPred : T → T → bool) (begin end_ : nat) : M T (list nat) :=
  let v := push_back_range (end_ - begin) begin [] in
  v ← std_stable_sort (by_value comp) v;
  u ← std_unique (by_value equalPred) v;
  let v := vector_erase u.1 u.2 (length u.1) in
  v ← std_sort S it_less v;
  ret v.

(** The loop of the range form of [stable_uniquify].  [n] is the distance
    from [it] to [end]; the loop also stops when [j] reaches
    [uniqIts.size()]. *)
Fixpoint uniquify_loop (n : nat) (it : nat) (uniqIts : list nat)
    (j : nat) (uniqueRegionEnd : nat) : M T nat :=
  match n with
  | 0 => ret uniqueRegionEnd
  | S n' =>
      if decide (j = length uniqIts) then ret uniqueRegionEnd
      else if decide (it = uniqIts !!! j) then
        iter_swap it uniqueRegionEnd ;;
        uniquify_loop n' (S it) uniqIts (S j) (S uniqueRegionEnd)
      else uniquify_loop n' (S it) uniqIts j uniqueRegionEnd
  end.

Definition stable_uniquify (S : StdSort)
    (comp equalPred : T → T → bool) (begin end_ : nat) : M T nat :=
  uniqIts ← stable_unique_iterators S comp equalPred begin end_;
  uniquify_loop (end_ - begin) begin uniqIts 0 begin.

(** [v.end()] as a position, and [v.erase(first, last)] on the vector that
    is the container itself; [erase] returns the position that follows the
    removed elements. *)
Definition vector_end : M T nat := λ v, (length v, v).

Definition erase (first last : nat) : M T nat :=
  λ v, (first, vector_erase v first last).

(** The body of the vector overload around its call of the range form:
    [v.erase(range_form(v.begin(), v.end()), v.end())]. *)
Definition erase_after (range_form : nat → nat → M T nat) : M T nat :=
  e ← vector_end;
  uniqueRegionEnd ← range_form 0 e;
  e ← vector_end;
  erase uniqueRegionEnd e.

(** The body for given predicates of the range form. *)
Definition stable_uniquify_vector_body (S : StdSort)
    (comp equalPred : T → T → bool) : M T nat :=
  erase_after (stable_uniquify S comp equalPred).

(** *** Template arguments

    The types that the header passes for the parameters [Compare],
    [EqualPred] and [Allocator].  [std::less<>] and [std::equal_to<>] have a
    call operator, which applies [operator<] and [operator==] of [T];
    [std::allocator] has none, so that an instantiation that calls an
    object of that type is ill-formed: there is no function. *)
Inductive TemplateArgument : Type :=
  | std_less
  | std_equal_to
  | std_allocator.

Context (less equal_to : T → T → bool).

Definition call_operator (F : TemplateArgument) : option (T → T → bool) :=
  match F with
  | std_less => Some less
  | std_equal_to => Some equal_to
  | std_allocator => None
  end.

(** The range form [stable_uniquify<It, Compare, EqualPred, Allocator>]
    called with two arguments: [comp] and [equalPred] are the default
    arguments [Compare{}] and [EqualPred{}]. *)
Definition stable_uniquify_instance (S : StdSort)
    (Compare EqualPred Allocator : TemplateArgument)
    : option (nat → nat → M T nat) :=
  comp ← call_operator Compare;
  equalPred ← call_operator EqualPred;
  Some (stable_uniquify S comp equalPred).

(** The vector overload [stable_uniquify<T, IteratorAllocator>(v)].  Its
    call of the range form names two template arguments,
    [stable_uniquify<iterator, IteratorAllocator>(v.begin(), v.end())];
    explicit template arguments are matched to the parameters in order, so
    [IteratorAllocator] is what [Compare] is bound to, and [EqualPred] and
    [Allocator] keep their defaults. *)
Definition stable_uniquify_vector (S : StdSort)
    (IteratorAllocator : TemplateArgument) : option (M T nat) :=
  range_form ←
    stable_uniquify_instance S IteratorAllocator std_equal_to std_allocator;
  Some (erase_after range_form).

(** The default of the template parameter [IteratorAllocator]. *)
Definition default_IteratorAllocator : TemplateArgument := std_allocator.

End iterator_sorting.

(** ** Pure readings of the standard algorithms

    When the comparator only reads the container, the monadic algorithms
    compute these list functions on the storage they are started in. *)

Fixpoint insert_by {A} (lt : A → A → bool) (x : A) (l : list A) : list A :=
  match l with
  | [] => [x]
  | y :: l' => if lt y x then y :: insert_by lt x l' else x :: y :: l'
  end.

Definition sort_by {A} (lt : A → A → bool) (l : list A) : list A :=
  foldr (insert_by lt) [] l.

Fixpoint unique_by {A} (eq : A → A → bool) (kept : A) (l : list A) : list A :=
  match l with
  | [] => [kept]
  | x :: l' =>
      if eq kept x then unique_by eq kept l' else kept :: unique_by eq x l'
  end.

Definition unique_run {A} (eq : A → A → bool) (l : list A) : list A :=
  match l with
  | [] => []
  | x :: l' => unique_by eq x l'
  end.

(** [cmp] reads the container and answers [f m] on storage [m]. *)
Definition reads {T A} (cmp : A → A → M T bool)
    (f : list T → A → A → bool) : Prop :=
  ∀ a b m, cmp a b m = (f m a b, m).

(** ** Notions of the specification *)

(** Sortedness together with stability: [before] is any relation by which
    the input is already ordered (for the iterator vector: the order of
    the positions).  After sorting, an element is never greater than a
    later one, and among equivalent elements [before] still holds. *)
Definition stably_ordered {A} (lt : A → A → bool)
    (before : A → A → Prop) (a b : A) : Prop :=
  lt b a = false ∧ (lt a b = false → before a b).

Section notions.
Context {T : Type} `{!Inhabited T}.

(** Position [p] holds the first element of its equivalence class within the
    range that starts at [b]: no earlier position of the range holds an
    equal value. *)
Definition first_occurrence (eq : T → T → bool) (m : list T) (b p : nat)
    : bool :=
  forallb (λ q, negb (eq (m !!! q) (m !!! p))) (seq b (p - b)).

(** The first-occurrence positions of the range, in ascending order. *)
Definition first_occurrences (eq : T → T → bool) (m : list T) (b e : nat)
    : list nat :=
  filter (λ p, first_occurrence eq m b p = true) (seq b (e - b)).

(** [r] lists, in ascending order, one position of the range per
    equivalence class of the values stored in the range. *)
Record representatives (eq : T → T → bool) (m : list T) (b e : nat)
    (r : list nat) : Prop := {
  repr_sorted : StronglySorted lt r;
  repr_range : ∀ p, p ∈ r → b ≤ p < e;
  repr_covers : ∀ q, b ≤ q < e → ∃ p, p ∈ r ∧ eq (m !!! p) (m !!! q) = true;
  repr_distinct : ∀ p p',
    p ∈ r → p' ∈ r → eq (m !!! p) (m !!! p') = true → p = p'
}.

(** No two positions of the range hold equal values. *)
Definition duplicate_free (equalPred : T → T → bool) (m : list T)
    (b e : nat) : Prop :=
  ∀ p q, b ≤ p < e → b ≤ q < e → p ≠ q →
    equalPred (m !!! p) (m !!! q) = false.

(** [r] holds exactly one representative per equivalence class of the
    range: it lists positions of the range in ascending order, and every
    position of the range has one and only one position in [r] that holds
    an equal value. *)
Definition one_per_class (equalPred : T → T → bool) (m : list T)
    (b e : nat) (r : list nat) : Prop :=
  StronglySorted lt r ∧
  (∀ p, p ∈ r → b ≤ p < e) ∧
  (∀ q, b ≤ q < e →
     ∃ p, p ∈ r ∧ equalPred (m !!! p) (m !!! q) = true ∧
          ∀ p', p' ∈ r → equalPred (m !!! p') (m !!! q) = true → p' = p).
End notions.

(** ** The algorithms compute their pure readings *)

Section pure_readings.
Context {T A : Type} (cmp : A → A → M T bool) (f : list T → A → A → bool).
Hypothesis Hcmp : reads cmp f.

Lemma stable_insert_pure x l m :
  stable_insert cmp x l m = (insert_by (f m) x l, m).
Proof using Hcmp.
  induction l as [|y l IH]; [done|].
  cbn. unfold_bind. rewrite Hcmp. cbn.
  destruct (f m y x); [|done].
  unfold_bind. by rewrite IH.
Qed.

Lemma std_stable_sort_pure l m :
  std_stable_sort cmp l m = (sort_by (f m) l, m).
Proof using Hcmp.
  induction l as [|x l IH]; [done|].
  cbn. unfold_bind. rewrite IH. cbn.
  apply stable_insert_pure.
Qed.

Lemma unique_from_pure kept l m :
  unique_from cmp kept l m = (unique_by (f m) kept l, m).
Proof using Hcmp.
  revert kept. induction l as [|x l IH]; intros kept; [done|].
  cbn. unfold_bind. rewrite Hcmp. cbn.
  destruct (f m kept x); [apply IH|].
  unfold_bind. by rewrite IH.
Qed.

Lemma std_unique_erase_pure v m :
  let u := (std_unique cmp v m).1 in
  vector_erase u.1 u.2 (length u.1) = unique_run (f m) v
  ∧ (std_unique cmp v m).2 = m.
Proof using Hcmp.
  destruct v as [|x l]; [done|].
  cbn. unfold_bind. rewrite unique_from_pure. cbn.
  split; [|done]. unfold vector_erase.
  rewrite take_app_length, drop_all. apply app_nil_r.
Qed.

End pure_readings.

(** ** Facts about strict weak orderings and the sorting algorithms *)

Section sorting_facts.
Context {A : Type} (lt : A → A → bool).
Hypothesis Hswo : StrictWeakOrder lt.

Lemma swo_asym x y : lt x y = true → lt y x = false.
Proof using Hswo.
  intros Hxy. destruct (lt y x) eqn:Hyx; [|done].
  pose proof (swo_trans _ Hswo _ _ _ Hxy Hyx) as Hxx.
  by rewrite (swo_irrefl _ Hswo) in Hxx.
Qed.

(** "Not greater" is transitive. *)
Lemma swo_le_trans x y z :
  lt y x = false → lt z y = false → lt z x = false.
Proof using Hswo.
  intros Hyx Hzy. destruct (lt z x) eqn:Hzx; [|done].
  destruct (lt x y) eqn:Hxy.
  { by rewrite (swo_trans _ Hswo _ _ _ Hzx Hxy) in Hzy. }
  destruct (lt y z) eqn:Hyz.
  { by rewrite (swo_trans _ Hswo _ _ _ Hyz Hzx) in Hyx. }
  destruct (swo_incomp _ Hswo x y z) as [_ ?]; congruence.
Qed.

Lemma swo_lt_le_trans x y z :
  lt x y = true → lt z y = false → lt x z = true.
Proof using Hswo.
  intros Hxy Hzy. destruct (lt x z) eqn:Hxz; [done|].
  by rewrite (swo_le_trans y z x) in Hxy.
Qed.

Lemma insert_by_perm x l : insert_by lt x l ≡ₚ x :: l.
Proof.
  induction l as [|y l IH]; [done|]. cbn.
  destruct (lt y x); [|done]. rewrite IH. apply Permutation_swap.
Qed.

Lemma sort_by_perm l : sort_by lt l ≡ₚ l.
Proof.
  induction l as [|x l IH]; [done|]. cbn.
  rewrite insert_by_perm. by f_equiv.
Qed.

Lemma insert_by_stably_ordered before x l :
  Forall (before x) l →
  StronglySorted (stably_ordered lt before) l →
  StronglySorted (stably_ordered lt before) (insert_by lt x l).
Proof using Hswo.
  intros Hx Hl. induction Hl as [|y l Hl IH Hy]; cbn.
  { repeat constructor. }
  apply Forall_cons in Hx as [Hxy Hx].
  destruct (lt y x) eqn:Hyx.
  - constructor; [by apply IH|].
    rewrite (insert_by_perm x l). constructor; [|done].
    split; [by apply swo_asym|congruence].
  - constructor; [by constructor|].
    constructor; [by split|].
    rewrite Forall_forall in Hx, Hy |- *. intros z Hz.
    destruct (Hy z Hz) as [Hzy _].
    split; [by apply (swo_le_trans x y z)|auto].
Qed.

Lemma sort_by_stably_ordered before l :
  StronglySorted before l →
  StronglySorted (stably_ordered lt before) (sort_by lt l).
Proof using Hswo.
  induction 1 as [|x l Hl IH Hx]; [constructor|].
  change (sort_by lt (x :: l)) with (insert_by lt x (sort_by lt l)).
  apply insert_by_stably_ordered; [|done].
  by rewrite sort_by_perm.
Qed.

Lemma sort_by_sorted l :
  StronglySorted (λ a b, lt b a = false) (sort_by lt l).
Proof using Hswo.
  assert (StronglySorted (λ _ _, True) l) as Hl.
  { induction l; constructor; [done|]. by apply Forall_forall. }
  apply (sort_by_stably_ordered _ _) in Hl.
  eapply Sorted.StronglySorted_ind with (P := StronglySorted _);
    [constructor| |exact Hl].
  intros a l' _ IH Ha. constructor; [done|].
  eapply Forall_impl; [exact Ha|]. by intros ? [? _].
Qed.
End sorting_facts.

(** Two implementations of [std::sort]: one that happens to be stable, and
    one that reverses the order of equivalent elements. *)
Program Definition insertion_sort : StdSort :=
  {| sort_fn A lt l := sort_by lt l |}.
Next Obligation. intros. apply sort_by_perm. Qed.
Next Obligation. intros. by apply sort_by_sorted. Qed.

Program Definition reversing_sort : StdSort :=
  {| sort_fn A lt l := sort_by lt (reverse l) |}.
Next Obligation. intros. by rewrite sort_by_perm, reverse_Permutation. Qed.
Next Obligation. intros. by apply sort_by_sorted. Qed.

(** ** Facts about [std::unique] on a sorted sequence *)

Section unique_facts.
Context {A : Type} (lt eq : A → A → bool).
Hypothesis Hc : Consistent lt eq.

Lemma eq_true x y : eq x y = true ↔ lt x y = false ∧ lt y x = false.
Proof using Hc.
  rewrite (cons_eq _ _ Hc).
  destruct (lt x y), (lt y x); cbn; intuition congruence.
Qed.

Lemma eq_false x y : eq x y = false ↔ lt x y = true ∨ lt y x = true.
Proof using Hc.
  rewrite (cons_eq _ _ Hc).
  destruct (lt x y), (lt y x); cbn; intuition congruence.
Qed.

Lemma eq_refl_true x : eq x x = true.
Proof using Hc. apply eq_true. by rewrite (swo_irrefl _ (cons_swo _ _ Hc)). Qed.

Lemma eq_sym_true x y : eq x y = true → eq y x = true.
Proof using Hc. rewrite !eq_true. by intros [??]. Qed.

Lemma eq_trans_true x y z : eq x y = true → eq y z = true → eq x z = true.
Proof using Hc.
  rewrite !eq_true. intros [??] [??].
  by apply (swo_incomp _ (cons_swo _ _ Hc) x y z).
Qed.

Lemma unique_by_head kept l : ∃ r, unique_by eq kept l = kept :: r.
Proof.
  revert kept. induction l as [|x l IH]; intros kept; cbn; [eauto|].
  destruct (eq kept x); eauto.
Qed.

Lemma unique_by_sublist kept l : unique_by eq kept l `sublist_of` kept :: l.
Proof.
  revert kept. induction l as [|x l IH]; intros kept; cbn; [done|].
  destruct (eq kept x).
  - etrans; [apply IH|]. apply sublist_skip, sublist_cons, reflexivity.
  - by apply sublist_skip.
Qed.

Lemma unique_run_sublist l : unique_run eq l `sublist_of` l.
Proof. destruct l; [done|apply unique_by_sublist]. Qed.

(** Every element is equal to one that is kept. *)
Lemma unique_by_covers kept l x :
  x ∈ kept :: l → ∃ y, y ∈ unique_by eq kept l ∧ eq y x = true.
Proof using Hc.
  revert kept. induction l as [|z l IH]; intros kept Hx; cbn.
  { apply list_elem_of_singleton in Hx as ->.
    exists kept. split; [by left|apply eq_refl_true]. }
  destruct (eq kept z) eqn:Hkz.
  - apply elem_of_cons in Hx as [->|Hx]; [apply IH; by left|].
    apply elem_of_cons in Hx as [->|Hx]; [|apply IH; by right].
    destruct (unique_by_head kept l) as [r Hr].
    exists kept. split; [rewrite Hr; by left|done].
  - apply elem_of_cons in Hx as [->|Hx].
    + exists kept. split; [by left|apply eq_refl_true].
    + destruct (IH z Hx) as (y & ? & ?). exists y. split; [by right|done].
Qed.

Lemma unique_run_covers l x :
  x ∈ l → ∃ y, y ∈ unique_run eq l ∧ eq y x = true.
Proof using Hc.
  destruct l; [by intros ?%elem_of_nil|apply unique_by_covers].
Qed.

(** On a sorted sequence the kept elements are strictly increasing. *)
Lemma unique_by_strict kept l :
  StronglySorted (λ a b, lt b a = false) (kept :: l) →
  StronglySorted (λ a b, lt a b = true) (unique_by eq kept l).
Proof using Hc.
  revert kept. induction l as [|x l IH]; intros kept Hs; cbn.
  { repeat constructor. }
  apply StronglySorted_cons in Hs as [Hk Hs].
  apply Forall_cons in Hk as [Hkx Hk].
  destruct (eq kept x) eqn:Hkx'.
  - apply IH. apply StronglySorted_cons. split; [done|].
    by apply StronglySorted_cons in Hs as [_ ?].
  - constructor; [by apply IH|].
    apply eq_false in Hkx' as [Hlt|?]; [|congruence].
    pose proof (unique_by_sublist x l) as Hsub.
    apply StronglySorted_cons in Hs as [Hx _].
    apply Forall_forall. intros y Hy.
    assert (y ∈ x :: l) as Hy' by (by eapply elem_of_sublist).
    apply elem_of_cons in Hy' as [->|Hy']; [done|].
    apply (swo_lt_le_trans lt (cons_swo _ _ Hc) kept x y); [done|].
    rewrite Forall_forall in Hx. by apply Hx.
Qed.

Lemma unique_run_strict l :
  StronglySorted (λ a b, lt b a = false) l →
  StronglySorted (λ a b, lt a b = true) (unique_run eq l).
Proof using Hc. destruct l; [constructor|apply unique_by_strict]. Qed.
End unique_facts.

(** ** Sorted sequences of positions *)

Lemma StronglySorted_sublist {A} (R : relation A) (k l : list A) :
  k `sublist_of` l → StronglySorted R l → StronglySorted R k.
Proof.
  induction 1 as [|x k l Hkl IH|x k l Hkl IH]; intros Hl; [done|..].
  - apply StronglySorted_cons in Hl as [Hx Hl].
    constructor; [by apply IH|].
    apply Forall_forall. intros y Hy. rewrite Forall_forall in Hx.
    apply Hx. by eapply elem_of_sublist.
  - apply StronglySorted_cons in Hl as [_ Hl]. by apply IH.
Qed.

Lemma StronglySorted_impl {A} (R1 R2 : relation A) (l : list A) :
  (∀ x y, x ∈ l → y ∈ l → R1 x y → R2 x y) →
  StronglySorted R1 l → StronglySorted R2 l.
Proof.
  intros HR Hl. induction Hl as [|x l Hl IH Hx]; [constructor|].
  constructor.
  - apply IH. intros ?????. apply HR; by try right.
  - rewrite Forall_forall in Hx |- *. intros y Hy.
    apply HR; [by left|by right|by apply Hx].
Qed.

(** Two elements of a sorted sequence are the same or related. *)
Lemma StronglySorted_related {A} (R : relation A) (l : list A) x y :
  StronglySorted R l → x ∈ l → y ∈ l → x = y ∨ R x y ∨ R y x.
Proof.
  induction 1 as [|z l Hl IH Hz]; [by intros ?%elem_of_nil|].
  rewrite Forall_forall in Hz.
  intros [->|Hx]%elem_of_cons [->|Hy]%elem_of_cons; auto.
Qed.

Lemma StronglySorted_lt_NoDup (l : list nat) : StronglySorted lt l → NoDup l.
Proof.
  induction 1 as [|x l Hl IH Hx]; constructor; [|done].
  rewrite Forall_forall in Hx. intros ?%Hx. lia.
Qed.

Lemma seq_sorted j n : StronglySorted lt (seq j n).
Proof.
  revert j. induction n as [|n IH]; intros j; cbn; constructor; [apply IH|].
  apply Forall_forall. intros k ?%elem_of_seq. lia.
Qed.

(** A sequence of positions is determined by its members once it is sorted. *)
Lemma sorted_positions_unique (r k : list nat) :
  StronglySorted (λ a b, (b <? a) = false) r → NoDup r →
  StronglySorted lt k →
  (∀ p, p ∈ r ↔ p ∈ k) →
  r = k.
Proof.
  intros Hr Hnd Hk Hmem.
  apply (StronglySorted_unique le).
  - eapply StronglySorted_impl; [|exact Hr].
    intros x y _ _ ?%Nat.ltb_ge. done.
  - eapply StronglySorted_impl; [|exact Hk]. intros; cbn in *; lia.
  - apply NoDup_Permutation; [done|by apply StronglySorted_lt_NoDup|done].
Qed.

Lemma nat_ltb_swo : StrictWeakOrder Nat.ltb.
Proof.
  split.
  - intros x. apply Nat.ltb_irrefl.
  - intros x y z ?%Nat.ltb_lt ?%Nat.ltb_lt. apply Nat.ltb_lt. lia.
  - intros x y z ?%Nat.ltb_ge ?%Nat.ltb_ge ?%Nat.ltb_ge ?%Nat.ltb_ge.
    rewrite !Nat.ltb_ge. lia.
Qed.

Lemma nat_consistent : Consistent Nat.ltb Nat.eqb.
Proof.
  split; [apply nat_ltb_swo|].
  intros x y.
  destruct (Nat.ltb_spec x y), (Nat.ltb_spec y x), (Nat.eqb_spec x y);
    cbn; lia || done.
Qed.

Lemma Consistent_lift {A B} (g : B → A) (comp eq : A → A → bool) :
  Consistent comp eq →
  Consistent (λ a b, comp (g a) (g b)) (λ a b, eq (g a) (g b)).
Proof.
  intros [[Hi Ht Hn] He]. split; [split|]; eauto.
Qed.

(** After a stable sort of positions, [std::unique] keeps of every class
    the smallest position. *)
Section unique_first.
Context (lt eq : nat → nat → bool).
Hypothesis Hc : Consistent lt eq.

Lemma unique_by_first kept l p :
  StronglySorted (stably_ordered lt Nat.lt) (kept :: l) →
  p ∈ unique_by eq kept l ↔
    p ∈ kept :: l ∧ ∀ q, q ∈ kept :: l → eq q p = true → p ≤ q.
Proof using Hc.
  pose proof (cons_swo _ _ Hc) as Hswo.
  revert kept. induction l as [|x l IH]; intros kept Hs; cbn.
  { rewrite list_elem_of_singleton. split; [intros ->|by intros [? _]].
    split; [done|]. intros q Hq _. apply list_elem_of_singleton in Hq. by subst. }
  apply StronglySorted_cons in Hs as [Hk Hs].
  pose proof Hk as Hk'. apply Forall_cons in Hk' as [[Hxk Hkx] Hkl].
  pose proof Hs as Hs'. apply StronglySorted_cons in Hs' as [Hxl Hl].
  rewrite Forall_forall in Hk, Hkl, Hxl.
  destruct (eq kept x) eqn:Hkx'.
  - apply (eq_true _ _ Hc) in Hkx' as [Hkx1 _]. specialize (Hkx Hkx1).
    rewrite IH
      by (apply StronglySorted_cons; split; [by apply Forall_forall|done]).
    split.
    + intros [Hp Hmin].
      split; [clear -Hp; rewrite ?elem_of_cons in *; tauto|].
      intros q [->|[->|Hq]%elem_of_cons]%elem_of_cons Hqp.
      * apply Hmin; [by left|done].
      * apply elem_of_cons in Hp as [->|Hp]; [lia|].
        assert (eq kept p = true) as Hkp.
        { apply (eq_trans_true _ _ Hc _ x); [|done].
          apply (eq_true _ _ Hc). done. }
        specialize (Hmin kept (ltac:(by left)) Hkp).
        destruct (Hkl p Hp) as [_ Hlt].
        apply (eq_true _ _ Hc) in Hkp as [Hkp _]. specialize (Hlt Hkp). lia.
      * apply Hmin; [by right|done].
    + intros [Hp Hmin].
      assert (p ≠ x) as Hne.
      { intros ->. assert (x ≤ kept); [|lia].
        apply Hmin; [by left|]. apply (eq_true _ _ Hc). done. }
      split; [clear -Hp Hne; rewrite ?elem_of_cons in *; tauto|].
      intros q Hq. apply Hmin. clear -Hq. rewrite ?elem_of_cons in *. tauto.
  - assert (lt kept x = true) as Hlt.
    { apply (eq_false _ _ Hc) in Hkx' as [?|?]; [done|congruence]. }
    rewrite elem_of_cons, IH by done.
    split.
    + intros [->|[Hp Hmin]].
      * split; [by left|].
        intros q [->|Hq]%elem_of_cons Hqp; [done|].
        destruct (Hk q Hq) as [_ Hb].
        apply (eq_true _ _ Hc) in Hqp as [_ Hqp]. specialize (Hb Hqp). lia.
      * split; [by right|].
        intros q [->|Hq]%elem_of_cons Hqp; [|by apply Hmin].
        exfalso. apply (eq_true _ _ Hc) in Hqp as [Hkp _].
        assert (lt p x = false) as Hpx.
        { apply elem_of_cons in Hp as [->|Hp];
            [apply (swo_irrefl _ Hswo)|apply (Hxl p Hp)]. }
        by rewrite (swo_lt_le_trans lt Hswo kept x p) in Hkp.
    + intros [[->|Hp]%elem_of_cons Hmin]; [by left|right].
      split; [done|]. intros q Hq. apply Hmin. by right.
Qed.

Lemma unique_run_first l p :
  StronglySorted (stably_ordered lt Nat.lt) l →
  p ∈ unique_run eq l ↔ p ∈ l ∧ ∀ q, q ∈ l → eq q p = true → p ≤ q.
Proof using Hc.
  destruct l; [|apply unique_by_first].
  cbn. rewrite elem_of_nil. tauto.
Qed.
End unique_first.

(** ** What the position-sort functions compute *)

Section position_sort.
Context {T : Type} `{!Inhabited T}.

Lemma push_back_range_seq n it v : push_back_range n it v = v ++ seq it n.
Proof.
  revert it v. induction n as [|n IH]; intros it v; cbn.
  - by rewrite app_nil_r.
  - by rewrite IH, <-app_assoc.
Qed.

Lemma by_value_reads (f : T → T → bool) :
  reads (by_value f) (λ m a b, f (m !!! a) (m !!! b)).
Proof. done. Qed.

Lemma first_occurrence_true eq (m : list T) b p :
  first_occurrence eq m b p = true ↔
  ∀ q, b ≤ q < p → eq (m !!! q) (m !!! p) = false.
Proof.
  unfold first_occurrence. rewrite forallb_forall. split.
  - intros Hf q Hq. apply negb_true_iff, Hf, list_elem_of_In, elem_of_seq. lia.
  - intros Hf q Hq%list_elem_of_In%elem_of_seq. apply negb_true_iff, Hf. lia.
Qed.

Lemma first_occurrences_elem eq (m : list T) b e p :
  p ∈ first_occurrences eq m b e ↔
  b ≤ p < e ∧ ∀ q, b ≤ q < p → eq (m !!! q) (m !!! p) = false.
Proof.
  unfold first_occurrences.
  rewrite list_elem_of_filter, first_occurrence_true, elem_of_seq.
  split; intros [??]; (split; [|done]) || (split; [done|]); lia.
Qed.

Lemma first_occurrences_sorted eq (m : list T) b e :
  StronglySorted lt (first_occurrences eq m b e).
Proof.
  eapply StronglySorted_sublist; [apply sublist_filter|apply seq_sorted].
Qed.

Section with_predicates.
Context (S : StdSort) (comp equalPred : T → T → bool).

Lemma std_sort_by_value (f : T → T → bool) l m :
  std_sort S (by_value f) l m =
  (sort_fn S nat (λ p q, f (m !!! p) (m !!! q)) l, m).
Proof. done. Qed.

Lemma std_sort_it_less l (m : list T) :
  std_sort S it_less l m = (sort_fn S nat Nat.ltb l, m).
Proof. done. Qed.

(** The two functions as list functions of the storage. *)
Lemma stable_unique_iterators_pure b e m :
  stable_unique_iterators S comp equalPred b e m =
  (sort_fn S nat Nat.ltb
     (unique_run (λ p q, equalPred (m !!! p) (m !!! q))
        (sort_by (λ p q, comp (m !!! p) (m !!! q)) (seq b (e - b)))), m).
Proof.
  unfold stable_unique_iterators. unfold_bind.
  rewrite push_back_range_seq, app_nil_l.
  rewrite (std_stable_sort_pure _ _ (by_value_reads comp)).
  cbn [fst snd].
  destruct (std_unique_erase_pure _ _ (by_value_reads equalPred)
    (sort_by (λ p q, comp (m !!! p) (m !!! q)) (seq b (e - b))) m) as [-> ->].
  by rewrite std_sort_it_less.
Qed.

Lemma unstable_unique_iterators_pure b e m :
  unstable_unique_iterators S comp equalPred b e m =
  (sort_fn S nat Nat.ltb
     (unique_run (λ p q, equalPred (m !!! p) (m !!! q))
        (sort_fn S nat (λ p q, comp (m !!! p) (m !!! q)) (seq b (e - b)))), m).
Proof.
  unfold unstable_unique_iterators. unfold_bind.
  rewrite push_back_range_seq, app_nil_l.
  rewrite std_sort_by_value. cbn [fst snd].
  destruct (std_unique_erase_pure _ _ (by_value_reads equalPred)
    (sort_fn S nat (λ p q, comp (m !!! p) (m !!! q)) (seq b (e - b))) m)
    as [-> ->].
  by rewrite std_sort_it_less.
Qed.

End with_predicates.
End position_sort.

Lemma sorted_NoDup_strict (r : list nat) :
  StronglySorted (λ a b, (b <? a) = false) r → NoDup r → StronglySorted lt r.
Proof.
  induction 1 as [|x l Hl IH Hx]; intros Hnd; [constructor|].
  apply NoDup_cons in Hnd as [Hxl Hnd]. constructor; [by apply IH|].
  rewrite Forall_forall in Hx |- *. intros y Hy.
  specialize (Hx y Hy). apply Nat.ltb_ge in Hx.
  assert (x ≠ y) by (by intros ->). lia.
Qed.

Section position_sort_correct.
Context {T : Type} `{!Inhabited T}.
Context (S : StdSort) (comp equalPred : T → T → bool).
Hypothesis Hc : Consistent comp equalPred.

(** Sorting the positions by value in any way, collapsing runs of equal
    values and sorting the survivors by position yields representatives. *)
Lemma sorted_unique_representatives m b e (s : list nat) :
  s ≡ₚ seq b (e - b) →
  StronglySorted (λ p q, comp (m !!! q) (m !!! p) = false) s →
  representatives equalPred m b e
    (sort_fn S nat Nat.ltb
       (unique_run (λ p q, equalPred (m !!! p) (m !!! q)) s)).
Proof using Hc.
  intros Hperm Hs.
  pose proof (Consistent_lift (λ p, m !!! p) _ _ Hc) as Hcv. cbn in Hcv.
  set (u := unique_run _ s).
  pose proof (unique_run_sublist (λ p q, equalPred (m !!! p) (m !!! q)) s)
    as Hsub. fold u in Hsub.
  pose proof (unique_run_strict _ _ Hcv s Hs) as Hstrict. fold u in Hstrict.
  pose proof (sort_fn_perm S nat Nat.ltb u nat_ltb_swo) as Hr.
  pose proof (sort_fn_sorted S nat Nat.ltb u nat_ltb_swo) as Hrs.
  assert (NoDup u) as Hnd.
  { eapply sublist_NoDup; [|exact Hsub]. rewrite Hperm. apply NoDup_seq. }
  split.
  - apply sorted_NoDup_strict; [done|by rewrite Hr].
  - intros p Hp. rewrite Hr in Hp.
    apply (elem_of_sublist _ _ _ Hp) in Hsub. rewrite Hperm in Hsub.
    apply elem_of_seq in Hsub. lia.
  - intros q Hq.
    assert (q ∈ s) as Hqs by (rewrite Hperm; apply elem_of_seq; lia).
    destruct (unique_run_covers _ _ Hcv s q Hqs) as (p & Hp & Hpq).
    exists p. by rewrite Hr.
  - intros p p' Hp Hp' Heq. rewrite Hr in Hp, Hp'.
    destruct (StronglySorted_related _ _ p p' Hstrict Hp Hp')
      as [?|[Hlt|Hlt]]; [done|exfalso..].
    + apply (eq_true _ _ Hcv) in Heq as [? _]. congruence.
    + apply (eq_true _ _ Hcv) in Heq as [_ ?]. congruence.
Qed.

(** The stable function returns the first-occurrence positions. *)
Lemma stable_unique_iterators_first m b e :
  stable_unique_iterators S comp equalPred b e m =
  (first_occurrences equalPred m b e, m).
Proof using Hc.
  rewrite stable_unique_iterators_pure. f_equal.
  pose proof (Consistent_lift (λ p, m !!! p) _ _ Hc) as Hcv. cbn in Hcv.
  set (s := sort_by _ (seq b (e - b))).
  assert (s ≡ₚ seq b (e - b)) as Hperm by apply sort_by_perm.
  assert (StronglySorted
    (stably_ordered (λ p q, comp (m !!! p) (m !!! q)) Nat.lt) s) as Hs.
  { apply sort_by_stably_ordered; [apply Hcv|apply seq_sorted]. }
  set (u := unique_run _ s).
  assert (NoDup u) as Hnd.
  { eapply sublist_NoDup; [|apply unique_run_sublist].
    rewrite Hperm. apply NoDup_seq. }
  pose proof (sort_fn_perm S nat Nat.ltb u nat_ltb_swo) as Hr.
  apply sorted_positions_unique.
  - apply sort_fn_sorted, nat_ltb_swo.
  - by rewrite Hr.
  - apply first_occurrences_sorted.
  - intros p. rewrite Hr. unfold u.
    rewrite (unique_run_first _ _ Hcv s p Hs), first_occurrences_elem.
    setoid_rewrite Hperm. setoid_rewrite elem_of_seq.
    split; intros [Hp Hmin]; (split; [lia|]); intros q Hq.
    + destruct (equalPred (m !!! q) (m !!! p)) eqn:Heq; [|done].
      assert (p ≤ q); [|lia]. apply Hmin; [lia|done].
    + intros Heq. destruct (decide (p ≤ q)) as [|Hlt]; [done|].
      rewrite Hmin in Heq by lia. done.
Qed.

(** The unstable function returns representatives, whatever [std::sort]
    does with equivalent elements. *)
Lemma unstable_unique_iterators_representatives m b e :
  representatives equalPred m b e
    (unstable_unique_iterators S comp equalPred b e m).1.
Proof using Hc.
  rewrite unstable_unique_iterators_pure. cbn [fst].
  pose proof (Consistent_lift (λ p, m !!! p) _ _ Hc) as [Hswo _].
  apply sorted_unique_representatives.
  - by apply sort_fn_perm.
  - by apply (sort_fn_sorted S nat (λ p q, comp (m !!! p) (m !!! q))).
Qed.

Lemma first_occurrences_representatives m b e :
  representatives equalPred m b e (first_occurrences equalPred m b e).
Proof using Hc S.
  pose proof (stable_unique_iterators_first m b e) as Hst.
  rewrite stable_unique_iterators_pure in Hst.
  injection Hst as <-.
  pose proof (Consistent_lift (λ p, m !!! p) _ _ Hc) as [Hswo _].
  apply sorted_unique_representatives.
  - apply sort_by_perm.
  - by apply (sort_by_sorted (λ p q, comp (m !!! p) (m !!! q))).
Qed.

End position_sort_correct.

(** ** The compaction loop *)

Section compaction.
Context {T : Type} `{!Inhabited T}.

Lemma iter_swap_perm (a b : nat) (m : list T) :
  a < length m → b < length m → (iter_swap a b m).2 ≡ₚ m.
Proof.
  intros Ha Hb. cbn.
  apply Permutation_insert_swap; by apply list_lookup_lookup_total_lt.
Qed.

Lemma iter_swap_length (a b : nat) (m : list T) :
  length (iter_swap a b m).2 = length m.
Proof. cbn. by rewrite !length_insert. Qed.

Lemma iter_swap_other (a b i : nat) (m : list T) :
  i ≠ a → i ≠ b → (iter_swap a b m).2 !! i = m !! i.
Proof. intros ??. cbn. by rewrite !list_lookup_insert_ne. Qed.

Lemma iter_swap_second (a b : nat) (m : list T) :
  a < length m → b < length m → (iter_swap a b m).2 !!! b = m !!! a.
Proof.
  intros ??. cbn. apply list_lookup_total_insert_eq. by rewrite length_insert.
Qed.

(** What the loop never touches, for any sequence [uniqIts]: the storage is
    rearranged inside [[uniqueRegionEnd, it + n)] only. *)
Lemma uniquify_loop_frame n it u j ure (m : list T) :
  ure ≤ it → it + n ≤ length m →
  let m' := (uniquify_loop n it u j ure m).2 in
  length m' = length m ∧ m' ≡ₚ m ∧
  ∀ i, i < ure ∨ it + n ≤ i → m' !! i = m !! i.
Proof.
  revert it j ure m. induction n as [|n IH]; intros it j ure m Hle Hlen; cbn.
  { done. }
  destruct (decide (j = length u)) as [|Hj]; [done|].
  destruct (decide (it = u !!! j)) as [Hit|Hit].
  - unfold_bind. cbn [fst snd].
    set (m1 := (iter_swap it ure m).2).
    assert (length m1 = length m) as Hlen1 by apply iter_swap_length.
    destruct (IH (Datatypes.S it) (Datatypes.S j) (Datatypes.S ure) m1)
      as (Hl & Hp & Hf); [lia..|].
    split; [congruence|]. split.
    + rewrite Hp. apply iter_swap_perm; lia.
    + intros i Hi. rewrite Hf by lia. apply iter_swap_other; lia.
  - destruct (IH (Datatypes.S it) j ure m) as (Hl & Hp & Hf); [lia..|].
    split; [done|]. split; [done|]. intros i Hi. apply Hf. lia.
Qed.

(** With an ascending sequence of positions of the range, the loop gathers
    the referenced values, in order, from [uniqueRegionEnd] on. *)
Lemma uniquify_loop_gathers n it u j ure (m : list T) :
  ure ≤ it → it + n ≤ length m → j ≤ length u →
  (∀ k k', k < k' < length u → u !!! k < u !!! k') →
  (∀ k, j ≤ k < length u → it ≤ u !!! k < it + n) →
  (uniquify_loop n it u j ure m).1 = ure + (length u - j) ∧
  ∀ k, j ≤ k < length u →
    (uniquify_loop n it u j ure m).2 !!! (ure + (k - j)) = m !!! (u !!! k).
Proof.
  revert it j ure m.
  induction n as [|n IH]; intros it j ure m Hle Hlen Hju Hasc Hin; cbn.
  { assert (length u ≤ j) as Hj.
    { destruct (decide (length u ≤ j)) as [|Hn]; [done|].
      specialize (Hin j). lia. }
    split; [lia|]. intros k ?. lia. }
  destruct (decide (j = length u)) as [Hj|Hj].
  { split; [cbn; lia|]. intros k ?. lia. }
  assert (j < length u) as Hj' by lia.
  destruct (decide (it = u !!! j)) as [Hit|Hit].
  - unfold_bind. cbn [fst snd].
    set (m1 := (iter_swap it ure m).2).
    assert (length m1 = length m) as Hlen1 by apply iter_swap_length.
    destruct (IH (Datatypes.S it) (Datatypes.S j) (Datatypes.S ure) m1)
      as (Hr & Hg); [lia|lia|lia|done| |].
    { intros k Hk. pose proof (Hin k). pose proof (Hasc j k). lia. }
    split; [lia|]. intros k Hk.
    destruct (decide (k = j)) as [->|Hkj].
    + replace (ure + (j - j)) with ure by lia.
      destruct (uniquify_loop_frame n (Datatypes.S it) u (Datatypes.S j)
        (Datatypes.S ure) m1) as (_ & _ & Hf); [lia..|].
      rewrite list_lookup_total_alt, Hf, <-list_lookup_total_alt by lia.
      rewrite <-Hit. apply iter_swap_second; lia.
    + replace (ure + (k - j)) with
        (Datatypes.S ure + (k - Datatypes.S j)) by lia.
      rewrite Hg by lia.
      rewrite (list_lookup_total_alt m1), (list_lookup_total_alt m).
      f_equal. apply iter_swap_other.
      * pose proof (Hasc j k). lia.
      * pose proof (Hasc j k). lia.
  - destruct (IH (Datatypes.S it) j ure m) as (Hr & Hg); [lia|lia|lia|done| |done].
    intros k Hk. pose proof (Hin k). pose proof (Hin j).
    destruct (decide (k = j)) as [->|Hkj]; [lia|].
    pose proof (Hasc j k). lia.
Qed.
End compaction.

(** ** What the range form and the vector body compute *)

Lemma StronglySorted_lt_lookup (u : list nat) k k' :
  StronglySorted lt u → k < k' < length u → u !!! k < u !!! k'.
Proof.
  intros Hu. revert k k'.
  induction Hu as [|x u Hu IH Hx]; intros k k' Hk; cbn in Hk; [lia|].
  destruct k' as [|k']; [lia|]. destruct k as [|k]; cbn.
  - rewrite Forall_forall in Hx. apply Hx, list_elem_of_lookup_total_2. lia.
  - apply IH. lia.
Qed.

(** Two lists of the same length with the same element at every index. *)
Lemma list_eq_lookup_total {A} `{!Inhabited A} (l k : list A) :
  length l = length k → (∀ i, i < length l → l !!! i = k !!! i) → l = k.
Proof.
  intros Hlen Hi. apply (list_eq_same_length _ _ (length l)); [done..|].
  intros i x y Hil Hx Hy.
  apply list_lookup_total_correct in Hx, Hy. rewrite <-Hx, <-Hy. by apply Hi.
Qed.

Section uniquify_correct.
Context {T : Type} `{!Inhabited T}.
Context (S : StdSort) (comp equalPred : T → T → bool).
Hypothesis Hc : Consistent comp equalPred.

Lemma first_occurrences_length m b e :
  length (first_occurrences equalPred m b e) ≤ e - b.
Proof.
  unfold first_occurrences.
  etrans; [apply length_filter|]. by rewrite length_seq.
Qed.

Lemma stable_uniquify_spec m b e :
  b ≤ e ≤ length m →
  let F := first_occurrences equalPred m b e in
  let res := stable_uniquify S comp equalPred b e m in
  res.1 = b + length F ∧
  length res.2 = length m ∧
  take (length F) (drop b res.2) = (λ p, m !!! p) <$> F ∧
  take b res.2 = take b m ∧
  drop e res.2 = drop e m ∧
  res.2 ≡ₚ m.
Proof using Hc.
  intros Hbe F res. subst res.
  unfold stable_uniquify. unfold_bind.
  rewrite (stable_unique_iterators_first S comp equalPred Hc). cbn [fst snd].
  fold F.
  pose proof (first_occurrences_length m b e) as HF. fold F in HF.
  destruct (uniquify_loop_frame (e - b) b F 0 b m) as (Hlen & Hperm & Hframe);
    [lia..|].
  destruct (uniquify_loop_gathers (e - b) b F 0 b m) as (Hres & Hgather);
    [lia|lia|lia| | |].
  { intros k k'. apply StronglySorted_lt_lookup, first_occurrences_sorted. }
  { intros k Hk.
    assert (F !!! k ∈ F) as Hin by (apply list_elem_of_lookup_total_2; lia).
    apply first_occurrences_elem in Hin. lia. }
  set (m' := (uniquify_loop (e - b) b F 0 b m).2) in *.
  split; [lia|]. split; [done|]. split; [|split; [|split; [|done]]].
  - apply list_eq_lookup_total.
    { rewrite length_take, length_drop, length_fmap. lia. }
    intros i Hi. rewrite length_take, length_drop in Hi.
    rewrite lookup_total_take_lt, lookup_total_drop by lia.
    rewrite (list_lookup_total_fmap (λ p, m !!! p) F i) by lia.
    specialize (Hgather i). rewrite Nat.sub_0_r in Hgather.
    apply Hgather. lia.
  - apply list_eq. intros i. destruct (decide (i < b)).
    + rewrite !lookup_take_lt by done. apply Hframe. lia.
    + by rewrite !lookup_take_ge by lia.
  - apply list_eq. intros i. rewrite !lookup_drop. apply Hframe. lia.
Qed.

(** The body of the vector overload leaves the values at the first-occurrence
    positions, in order, and returns the new end. *)
Lemma stable_uniquify_vector_body_spec v :
  stable_uniquify_vector_body S comp equalPred v =
  (length (first_occurrences equalPred v 0 (length v)),
   (λ p, v !!! p) <$> first_occurrences equalPred v 0 (length v)).
Proof using Hc.
  unfold stable_uniquify_vector_body, erase_after, vector_end, erase.
  unfold_bind.
  cbn [fst snd].
  destruct (stable_uniquify_spec v 0 (length v)) as (-> & Hlen & Hpre & _);
    [lia|].
  rewrite drop_0 in Hpre. cbn [Nat.add].
  f_equal. unfold vector_erase. by rewrite Hpre, drop_all, app_nil_r.
Qed.
End uniquify_correct.

(** ** Consequences for special inputs *)

Lemma sorted_lt_ext (r k : list nat) :
  StronglySorted lt r → StronglySorted lt k → (∀ p, p ∈ r ↔ p ∈ k) → r = k.
Proof.
  intros Hr Hk Hmem. apply sorted_positions_unique; [|  |done..].
  - eapply StronglySorted_impl; [|exact Hr].
    intros x y _ _ ?. apply Nat.ltb_ge. cbn in *. lia.
  - by apply StronglySorted_lt_NoDup.
Qed.

Section special_inputs.
Context {T : Type} `{!Inhabited T}.
Context (comp equalPred : T → T → bool).
Hypothesis Hc : Consistent comp equalPred.

Lemma first_occurrences_all_equal m b e :
  b < e →
  (∀ p q, b ≤ p < e → b ≤ q < e → equalPred (m !!! p) (m !!! q) = true) →
  first_occurrences equalPred m b e = [b].
Proof.
  intros Hbe Hall. apply sorted_lt_ext.
  - apply first_occurrences_sorted.
  - repeat constructor.
  - intros p. rewrite first_occurrences_elem, list_elem_of_singleton. split.
    + intros [Hp Hfirst]. destruct (decide (p = b)) as [|Hne]; [done|].
      specialize (Hfirst b ltac:(lia)). rewrite Hall in Hfirst by lia. done.
    + intros ->. split; [lia|]. intros q ?. lia.
Qed.

Lemma first_occurrences_duplicate_free m b e :
  duplicate_free equalPred m b e →
  first_occurrences equalPred m b e = seq b (e - b).
Proof.
  intros Hdf. apply sorted_lt_ext.
  - apply first_occurrences_sorted.
  - apply seq_sorted.
  - intros p. rewrite first_occurrences_elem, elem_of_seq. split.
    + intros [? _]. lia.
    + intros ?. split; [lia|]. intros q ?. apply Hdf; lia.
Qed.

Lemma first_occurrences_full_length m b e :
  length (first_occurrences equalPred m b e) = e - b ↔
  duplicate_free equalPred m b e.
Proof using Hc.
  split.
  - intros Hlen.
    assert (∀ q, b ≤ q < e → first_occurrence equalPred m b q = true) as Hall.
    { intros q Hq.
      destruct (first_occurrence equalPred m b q) eqn:Hfo; [done|].
      exfalso.
      assert (q ∈ seq b (e - b)) as Hin by (apply elem_of_seq; lia).
      pose proof (length_filter_lt
        (λ p, first_occurrence equalPred m b p = true) _ q Hin) as Hlt.
      fold (first_occurrences equalPred m b e) in Hlt.
      rewrite length_seq in Hlt. rewrite Hfo in Hlt.
      specialize (Hlt ltac:(done)). lia. }
    intros p q Hp Hq Hne.
    destruct (decide (p < q)).
    + apply (proj1 (first_occurrence_true _ _ _ _) (Hall q Hq)). lia.
    + destruct (equalPred (m !!! p) (m !!! q)) eqn:Heq; [|done].
      apply (eq_sym_true _ _ Hc) in Heq.
      rewrite (proj1 (first_occurrence_true _ _ _ _) (Hall p Hp)) in Heq
        by lia.
      done.
  - intros Hdf. by rewrite first_occurrences_duplicate_free, length_seq.
Qed.

(** The values kept by a stable deduplication are duplicate-free. *)
Lemma first_occurrence_values_duplicate_free m b e :
  let w := (λ p, m !!! p) <$> first_occurrences equalPred m b e in
  duplicate_free equalPred w 0 (length w).
Proof using Hc.
  intros w p q Hp Hq Hne. subst w. rewrite length_fmap in Hp, Hq.
  set (F := first_occurrences equalPred m b e) in *.
  rewrite (list_lookup_total_fmap (λ p, m !!! p) F p) by lia.
  rewrite (list_lookup_total_fmap (λ p, m !!! p) F q) by lia.
  assert (∀ i j, i < j < length F →
    equalPred (m !!! (F !!! i)) (m !!! (F !!! j)) = false) as Hlt.
  { intros i j Hij.
    assert (F !!! j ∈ F) as Hj by (apply list_elem_of_lookup_total_2; lia).
    assert (F !!! i ∈ F) as Hi by (apply list_elem_of_lookup_total_2; lia).
    apply first_occurrences_elem in Hi as [Hi _].
    apply first_occurrences_elem in Hj as [_ Hj]. apply Hj.
    pose proof (StronglySorted_lt_lookup F i j
      (first_occurrences_sorted _ _ _ _) Hij). lia. }
  destruct (decide (p < q)); [apply Hlt; lia|].
  destruct (equalPred (m !!! (F !!! p)) (m !!! (F !!! q))) eqn:Heq; [|done].
  apply (eq_sym_true _ _ Hc) in Heq. rewrite Hlt in Heq by lia. done.
Qed.
End special_inputs.

(** ** Two choices of representatives *)

Section representatives_facts.
Context {T : Type} `{!Inhabited T}.
Context (comp equalPred : T → T → bool).
Hypothesis Hc : Consistent comp equalPred.

(** Every position of the range has exactly one representative. *)
Lemma representatives_unique m b e r q :
  representatives equalPred m b e r → b ≤ q < e →
  ∃ p, p ∈ r ∧ equalPred (m !!! p) (m !!! q) = true ∧
       ∀ p', p' ∈ r → equalPred (m !!! p') (m !!! q) = true → p' = p.
Proof using Hc.
  intros Hr Hq. destruct (repr_covers _ _ _ _ _ Hr q Hq) as (p & Hp & Hpq).
  exists p. split; [done|]. split; [done|]. intros p' Hp' Hp'q.
  apply (repr_distinct _ _ _ _ _ Hr); [done..|].
  apply (eq_trans_true _ _ Hc _ (m !!! q)); [done|].
  by apply (eq_sym_true _ _ Hc).
Qed.

(** Two sequences of representatives of the same range list the same
    classes: one is, up to the order, elementwise equal to the other. *)
Lemma representatives_match m b e r1 r2 :
  representatives equalPred m b e r1 →
  representatives equalPred m b e r2 →
  ∃ r', r' ≡ₚ r1 ∧
        Forall2 (λ p q, equalPred (m !!! p) (m !!! q) = true) r' r2.
Proof using Hc.
  intros H1 H2.
  pose proof (StronglySorted_lt_NoDup _ (repr_sorted _ _ _ _ _ H2)) as Hnd2.
  assert (∀ k, k ⊆ r2 → NoDup k →
    ∃ r', Forall2 (λ p q, equalPred (m !!! p) (m !!! q) = true) r' k
          ∧ NoDup r' ∧ r' ⊆ r1) as Hbuild.
  { induction k as [|q k IH]; intros Hsub Hnd.
    { exists []. split; [constructor|]. split; [constructor|].
      by intros ? ?%elem_of_nil. }
    apply NoDup_cons in Hnd as [Hqk Hnd].
    destruct IH as (r' & HF & Hnd' & Hsub'); [|done|].
    { intros x Hx. apply Hsub. by right. }
    assert (q ∈ r2) as Hq2 by (apply Hsub; by left).
    destruct (repr_covers _ _ _ _ _ H1 q
      (repr_range _ _ _ _ _ H2 q Hq2)) as (p & Hp & Hpq).
    exists (p :: r'). split; [by constructor|]. split.
    - apply NoDup_cons. split; [|done]. intros Hpr'.
      apply list_elem_of_lookup in Hpr' as [i Hi].
      destruct (Forall2_lookup_l _ _ _ _ _ HF Hi) as (q' & Hq' & Hpq').
      apply list_elem_of_lookup_2 in Hq'.
      assert (q = q'); [|by subst].
      apply (repr_distinct _ _ _ _ _ H2); [done|apply Hsub; by right|].
      apply (eq_trans_true _ _ Hc _ (m !!! p)); [|done].
      by apply (eq_sym_true _ _ Hc).
    - intros x [->|Hx]%elem_of_cons; [done|by apply Hsub']. }
  destruct (Hbuild r2) as (r' & HF & Hnd' & Hsub'); [done..|].
  exists r'. split; [|done].
  apply NoDup_Permutation;
    [done|apply StronglySorted_lt_NoDup, (repr_sorted _ _ _ _ _ H1)|].
  intros p. split; [apply Hsub'|]. intros Hp.
  destruct (repr_covers _ _ _ _ _ H2 p
    (repr_range _ _ _ _ _ H1 p Hp)) as (q & Hq & Hqp).
  apply list_elem_of_lookup in Hq as [i Hi].
  destruct (Forall2_lookup_r _ _ _ _ _ HF Hi) as (p' & Hp' & Hp'q).
  apply list_elem_of_lookup_2 in Hp'.
  assert (p' = p); [|by subst].
  apply (repr_distinct _ _ _ _ _ H1); [by apply Hsub'|done|].
  by apply (eq_trans_true _ _ Hc _ (m !!! q)).
Qed.

Lemma representatives_one_per_class m b e r :
  representatives equalPred m b e r → one_per_class equalPred m b e r.
Proof using Hc.
  intros Hr. split; [apply Hr|]. split; [apply Hr|].
  intros q Hq. by apply (representatives_unique m b e).
Qed.
End representatives_facts.

(** * The properties of the specification *)

(** C1.  For consistent predicates and a range of the container,
    [stable_unique_iterators] returns the positions of the range in
    ascending order, exactly one per equivalence class of the values in the
    range, and each returned position is the first occurrence of its class:
    no earlier position of the range holds an equal value.  The result is
    the list of first-occurrence positions, whatever [std::sort] is used. *)
Theorem stable_unique_iterators_correct {T} `{!Inhabited T} (S : StdSort)
    (comp equalPred : T → T → bool) (m : list T) (b e : nat) :
  Consistent comp equalPred → b ≤ e ≤ length m →
  let r := (stable_unique_iterators S comp equalPred b e m).1 in
  r = first_occurrences equalPred m b e ∧
  StronglySorted lt r ∧
  (∀ p, p ∈ r → b ≤ p < e) ∧
  (∀ q, b ≤ q < e →
     ∃ p, p ∈ r ∧ equalPred (m !!! p) (m !!! q) = true ∧
          ∀ p', p' ∈ r → equalPred (m !!! p') (m !!! q) = true → p' = p) ∧
  (∀ p, p ∈ r → ∀ q, b ≤ q < p → equalPred (m !!! q) (m !!! p) = false).
Proof.
  intros Hc Hbe r. subst r.
  rewrite (stable_unique_iterators_first S comp equalPred Hc). cbn [fst].
  pose proof (first_occurrences_representatives S comp equalPred Hc m b e)
    as Hr.
  split; [done|]. split; [apply Hr|]. split; [apply Hr|]. split.
  - intros q Hq. by apply (representatives_unique comp equalPred Hc m b e).
  - intros p Hp. by apply first_occurrences_elem in Hp as [_ ?].
Qed.

(** Scenario 1: in [[3;1;2;1;3]] the positions 0, 1, 2 survive, with the
    values 3, 1, 2. *)
Lemma stable_unique_iterators_scenario_1 :
  Consistent Nat.ltb Nat.eqb ∧ 0 ≤ 5 ≤ length [3; 1; 2; 1; 3] ∧
  (stable_unique_iterators insertion_sort Nat.ltb Nat.eqb 0 5
     [3; 1; 2; 1; 3]).1 = [0; 1; 2] ∧
  (λ p, [3; 1; 2; 1; 3] !!! p) <$> [0; 1; 2] = [3; 1; 2].
Proof.
  split; [apply nat_consistent|]. split; [cbn; lia|]. split; [|reflexivity].
  apply (stable_unique_iterators_correct insertion_sort Nat.ltb Nat.eqb
           [3; 1; 2; 1; 3] 0 5 nat_consistent).
  cbn; lia.
Defined.

(** C6.  For consistent predicates, [unstable_unique_iterators] returns
    positions of the range in ascending order, exactly one per equivalence
    class; which member of a class is returned depends on [std::sort]. *)
Theorem unstable_unique_iterators_correct {T} `{!Inhabited T} (S : StdSort)
    (comp equalPred : T → T → bool) (m : list T) (b e : nat) :
  Consistent comp equalPred → b ≤ e ≤ length m →
  let r := (unstable_unique_iterators S comp equalPred b e m).1 in
  StronglySorted lt r ∧
  (∀ p, p ∈ r → b ≤ p < e) ∧
  (∀ q, b ≤ q < e →
     ∃ p, p ∈ r ∧ equalPred (m !!! p) (m !!! q) = true ∧
          ∀ p', p' ∈ r → equalPred (m !!! p') (m !!! q) = true → p' = p).
Proof.
  intros Hc Hbe r.
  pose proof (unstable_unique_iterators_representatives
    S comp equalPred Hc m b e) as Hr. fold r in Hr.
  split; [apply Hr|]. split; [apply Hr|].
  intros q Hq. by apply (representatives_unique comp equalPred Hc m b e).
Qed.

Lemma unstable_unique_iterators_example :
  Consistent Nat.ltb Nat.eqb ∧ 0 ≤ 5 ≤ length [3; 1; 2; 1; 3] ∧
  let r := (unstable_unique_iterators reversing_sort Nat.ltb Nat.eqb 0 5
              [3; 1; 2; 1; 3]).1 in
  StronglySorted lt r ∧
  (∀ p, p ∈ r → 0 ≤ p < 5) ∧
  (∀ q, 0 ≤ q < 5 →
     ∃ p, p ∈ r ∧ ([3; 1; 2; 1; 3] !!! p =? [3; 1; 2; 1; 3] !!! q) = true ∧
          ∀ p', p' ∈ r →
            ([3; 1; 2; 1; 3] !!! p' =? [3; 1; 2; 1; 3] !!! q) = true →
            p' = p).
Proof.
  split; [apply nat_consistent|]. split; [cbn; lia|].
  apply (unstable_unique_iterators_correct reversing_sort Nat.ltb Nat.eqb
           [3; 1; 2; 1; 3] 0 5 nat_consistent).
  cbn; lia.
Defined.

(** The representative is not fixed: two implementations of [std::sort]
    make the unstable function return different positions. *)
Example unstable_representative_depends_on_sort :
  (unstable_unique_iterators insertion_sort Nat.ltb Nat.eqb 0 5
     [3; 1; 2; 1; 3]).1 = [0; 1; 2] ∧
  (unstable_unique_iterators reversing_sort Nat.ltb Nat.eqb 0 5
     [3; 1; 2; 1; 3]).1 = [2; 3; 4].
Proof. split; reflexivity. Qed.

(** C2.  For consistent predicates, the range form of [stable_uniquify]
    returns [r = begin + (number of equivalence classes)], and afterwards
    [[begin, r)] holds the values that stood at the first-occurrence
    positions of the original range, in the order of those positions: one
    value per class, the first of its class, in the original relative
    order. *)
Theorem stable_uniquify_range_correct {T} `{!Inhabited T} (S : StdSort)
    (comp equalPred : T → T → bool) (m : list T) (b e : nat) :
  Consistent comp equalPred → b ≤ e ≤ length m →
  let res := stable_uniquify S comp equalPred b e m in
  let F := first_occurrences equalPred m b e in
  res.1 = b + length F ∧
  take (res.1 - b) (drop b res.2) = (λ p, m !!! p) <$> F ∧
  representatives equalPred m b e F ∧
  (∀ p, p ∈ F → ∀ q, b ≤ q < p → equalPred (m !!! q) (m !!! p) = false).
Proof.
  intros Hc Hbe res F.
  destruct (stable_uniquify_spec S comp equalPred Hc m b e Hbe)
    as (Hres & _ & Hpre & _).
  fold res F in Hres, Hpre.
  split; [done|]. split.
  - rewrite Hres. by replace (b + length F - b) with (length F) by lia.
  - split; [by apply (first_occurrences_representatives S comp)|].
    intros p Hp. by apply first_occurrences_elem in Hp as [_ ?].
Qed.

Lemma stable_uniquify_range_example :
  Consistent Nat.ltb Nat.eqb ∧ 1 ≤ 6 ≤ length [9; 3; 1; 1; 2; 3; 1; 2] ∧
  let res := stable_uniquify insertion_sort Nat.ltb Nat.eqb 1 6
               [9; 3; 1; 1; 2; 3; 1; 2] in
  res.1 = 4 ∧ take (res.1 - 1) (drop 1 res.2) = [3; 1; 2].
Proof.
  split; [apply nat_consistent|]. split; [cbn; lia|].
  pose proof (stable_uniquify_range_correct insertion_sort Nat.ltb Nat.eqb
    [9; 3; 1; 1; 2; 3; 1; 2] 1 6 nat_consistent ltac:(cbn; lia)) as H.
  split; [exact (proj1 H)|exact (proj1 (proj2 H))].
Defined.

(** C3.  For any predicates, the range form of [stable_uniquify] rearranges
    the values of [[begin, end)]: the values stored in the range afterwards
    are a permutation of those stored before, the container keeps its
    length, and nothing outside the range changes. *)
Theorem stable_uniquify_range_permutes {T} `{!Inhabited T} (S : StdSort)
    (comp equalPred : T → T → bool) (m : list T) (b e : nat) :
  b ≤ e ≤ length m →
  let m' := (stable_uniquify S comp equalPred b e m).2 in
  take (e - b) (drop b m') ≡ₚ take (e - b) (drop b m) ∧
  length m' = length m ∧
  take b m' = take b m ∧
  drop e m' = drop e m.
Proof.
  intros Hbe m'. subst m'.
  unfold stable_uniquify. unfold_bind.
  rewrite stable_unique_iterators_pure. cbn [fst snd].
  set (u := sort_fn S nat Nat.ltb _).
  destruct (uniquify_loop_frame (e - b) b u 0 b m) as (Hlen & Hperm & Hframe);
    [lia..|].
  set (m' := (uniquify_loop (e - b) b u 0 b m).2) in *.
  assert (take b m' = take b m) as Htake.
  { apply list_eq. intros i. destruct (decide (i < b)).
    - rewrite !lookup_take_lt by done. apply Hframe. lia.
    - by rewrite !lookup_take_ge by lia. }
  assert (drop e m' = drop e m) as Hdrop.
  { apply list_eq. intros i. rewrite !lookup_drop. apply Hframe. lia. }
  split; [|done].
  assert (∀ l : list T,
    l = take b l ++ take (e - b) (drop b l) ++ drop e l) as Hsplit.
  { intros l.
    replace (drop e l) with (drop (e - b) (drop b l))
      by (rewrite drop_drop; f_equal; lia).
    by rewrite !take_drop. }
  rewrite (Hsplit m'), (Hsplit m), Htake, Hdrop in Hperm.
  apply Permutation_app_inv_l, Permutation_app_inv_r in Hperm. done.
Qed.

Lemma stable_uniquify_range_permutes_example :
  1 ≤ 6 ≤ length [9; 3; 1; 1; 2; 3; 1; 2] ∧
  let m' := (stable_uniquify insertion_sort Nat.ltb Nat.eqb 1 6
               [9; 3; 1; 1; 2; 3; 1; 2]).2 in
  take (6 - 1) (drop 1 m') ≡ₚ take (6 - 1) (drop 1 [9; 3; 1; 1; 2; 3; 1; 2]) ∧
  length m' = length [9; 3; 1; 1; 2; 3; 1; 2] ∧
  take 1 m' = take 1 [9; 3; 1; 1; 2; 3; 1; 2] ∧
  drop 6 m' = drop 6 [9; 3; 1; 1; 2; 3; 1; 2].
Proof.
  split; [cbn; lia|].
  apply (stable_uniquify_range_permutes insertion_sort Nat.ltb Nat.eqb
           [9; 3; 1; 1; 2; 3; 1; 2] 1 6).
  cbn; lia.
Defined.

(** C4.  The vector overload, called as [stable_uniquify(v)], names
    [IteratorAllocator] where the range form expects [Compare].  With the
    default [IteratorAllocator], a [std::allocator], the comparator of the
    range form is an object without call operator: the call has no
    well-formed instantiation, for any element type, any [operator<] and
    [operator==], and therefore for any vector. *)
Theorem stable_uniquify_vector_default_ill_formed {T} `{!Inhabited T}
    (less equal_to : T → T → bool) (S : StdSort) :
  stable_uniquify_vector less equal_to S default_IteratorAllocator = None.
Proof. reflexivity. Qed.

(** The overload is well-formed only when the caller passes a comparator
    type in the place of the allocator; it then runs its body with
    [operator<] and [operator==]. *)
Lemma stable_uniquify_vector_with_less {T} `{!Inhabited T}
    (less equal_to : T → T → bool) (S : StdSort) :
  stable_uniquify_vector less equal_to S std_less =
  Some (stable_uniquify_vector_body S less equal_to).
Proof. reflexivity. Qed.

(** What the documentation of the overload promises holds for its body:
    Scenario 5, a duplicate-free vector is left as it is. *)
Example stable_uniquify_vector_body_scenario_5 :
  stable_uniquify_vector_body insertion_sort Nat.ltb Nat.eqb [1; 2; 3; 4] =
  (4, [1; 2; 3; 4]).
Proof. reflexivity. Qed.

Lemma fmap_lookup_total_seq {A} `{!Inhabited A} (w : list A) :
  (λ p, w !!! p) <$> seq 0 (length w) = w.
Proof.
  apply list_eq_lookup_total.
  { by rewrite length_fmap, length_seq. }
  intros i Hi. rewrite length_fmap, length_seq in Hi.
  rewrite (list_lookup_total_fmap (λ p, w !!! p) (seq 0 (length w)) i)
    by (by rewrite length_seq).
  by rewrite lookup_total_seq_lt.
Qed.

(** C5.  Stable deduplication is idempotent.  For consistent predicates,
    running the body of the vector overload (the range form over the whole
    vector, then [erase] of the suffix) on its own output returns the same
    position and leaves the same vector; on that output the stable
    position sort keeps every position. *)
Theorem stable_dedup_idempotent {T} `{!Inhabited T} (S : StdSort)
    (comp equalPred : T → T → bool) (v : list T) :
  Consistent comp equalPred →
  let once := stable_uniquify_vector_body S comp equalPred v in
  stable_uniquify_vector_body S comp equalPred once.2 = once ∧
  (stable_unique_iterators S comp equalPred 0 (length once.2) once.2).1 =
    seq 0 (length once.2).
Proof.
  intros Hc once. subst once.
  rewrite (stable_uniquify_vector_body_spec S comp equalPred Hc v).
  cbn [fst snd].
  set (w := (λ p, v !!! p) <$> first_occurrences equalPred v 0 (length v)).
  pose proof (first_occurrence_values_duplicate_free comp equalPred Hc
    v 0 (length v)) as Hdf. cbn zeta in Hdf. fold w in Hdf.
  apply (first_occurrences_duplicate_free equalPred) in Hdf.
  rewrite Nat.sub_0_r in Hdf.
  rewrite (stable_uniquify_vector_body_spec S comp equalPred Hc w).
  rewrite (stable_unique_iterators_first S comp equalPred Hc). cbn [fst].
  rewrite Hdf, fmap_lookup_total_seq, length_seq.
  split; [|done]. f_equal. unfold w. by rewrite length_fmap.
Qed.

Lemma stable_dedup_idempotent_example :
  Consistent Nat.ltb Nat.eqb ∧
  let once := stable_uniquify_vector_body insertion_sort Nat.ltb Nat.eqb
                [3; 1; 2; 1; 3] in
  once = (3, [3; 1; 2]) ∧
  stable_uniquify_vector_body insertion_sort Nat.ltb Nat.eqb once.2 = once ∧
  (stable_unique_iterators insertion_sort Nat.ltb Nat.eqb
     0 (length once.2) once.2).1 = seq 0 (length once.2).
Proof.
  split; [apply nat_consistent|]. split; [reflexivity|].
  apply (stable_dedup_idempotent insertion_sort Nat.ltb Nat.eqb
           [3; 1; 2; 1; 3] nat_consistent).
Defined.

(** C7.  Edge cases of [stable_unique_iterators].  An empty range gives the
    empty sequence and a range of one element gives that one position, for
    any predicates.  For consistent predicates, a non-empty range whose
    values are all equal gives the first position of the range alone, and a
    duplicate-free range gives all its positions in order. *)
Theorem stable_unique_iterators_edge_cases {T} `{!Inhabited T} (S : StdSort)
    (comp equalPred : T → T → bool) (m : list T) (b e : nat) :
  b ≤ e ≤ length m →
  let r := (stable_unique_iterators S comp equalPred b e m).1 in
  (e = b → r = []) ∧
  (e = b + 1 → r = [b]) ∧
  (Consistent comp equalPred → b < e →
   (∀ p q, b ≤ p < e → b ≤ q < e → equalPred (m !!! p) (m !!! q) = true) →
   r = [b]) ∧
  (Consistent comp equalPred → duplicate_free equalPred m b e →
   r = seq b (e - b)).
Proof.
  intros Hbe r. subst r. split; [|split; [|split]].
  - intros ->. rewrite stable_unique_iterators_pure, Nat.sub_diag. cbn.
    apply Permutation_nil_r, (sort_fn_perm S nat Nat.ltb []), nat_ltb_swo.
  - intros ->. rewrite stable_unique_iterators_pure.
    replace (b + 1 - b) with 1 by lia. cbn.
    apply Permutation_singleton_r, (sort_fn_perm S nat Nat.ltb [b]),
      nat_ltb_swo.
  - intros Hc Hlt Hall.
    rewrite (stable_unique_iterators_first S comp equalPred Hc). cbn [fst].
    by apply first_occurrences_all_equal.
  - intros Hc Hdf.
    rewrite (stable_unique_iterators_first S comp equalPred Hc). cbn [fst].
    by apply first_occurrences_duplicate_free.
Qed.

(** Scenario 3: in [[5;5;5;5]] position 0 alone survives. *)
Lemma stable_unique_iterators_scenario_3 :
  0 ≤ 4 ≤ length [5; 5; 5; 5] ∧
  (stable_unique_iterators insertion_sort Nat.ltb Nat.eqb 0 4
     [5; 5; 5; 5]).1 = [0].
Proof.
  split; [cbn; lia|].
  apply (stable_unique_iterators_edge_cases insertion_sort Nat.ltb Nat.eqb
           [5; 5; 5; 5] 0 4 ltac:(cbn; lia)).
  - apply nat_consistent.
  - lia.
  - intros p q Hp Hq.
    assert (p ∈ seq 0 4) as Hp' by (apply elem_of_seq; lia).
    assert (q ∈ seq 0 4) as Hq' by (apply elem_of_seq; lia).
    cbn in Hp', Hq'. rewrite !elem_of_cons, elem_of_nil in Hp', Hq'.
    destruct Hp' as [->|[->|[->|[->|[]]]]], Hq' as [->|[->|[->|[->|[]]]]];
      reflexivity.
Defined.

(** C8.  For consistent predicates the result of [stable_unique_iterators]
    is at most as long as the range, and exactly as long if and only if no
    two positions of the range hold equal values. *)
Theorem stable_unique_iterators_length {T} `{!Inhabited T} (S : StdSort)
    (comp equalPred : T → T → bool) (m : list T) (b e : nat) :
  Consistent comp equalPred → b ≤ e ≤ length m →
  let r := (stable_unique_iterators S comp equalPred b e m).1 in
  length r ≤ e - b ∧
  (length r = e - b ↔ duplicate_free equalPred m b e).
Proof.
  intros Hc Hbe r. subst r.
  rewrite (stable_unique_iterators_first S comp equalPred Hc). cbn [fst].
  split; [apply first_occurrences_length|].
  by apply (first_occurrences_full_length comp).
Qed.

Lemma stable_unique_iterators_length_example :
  Consistent Nat.ltb Nat.eqb ∧ 0 ≤ 5 ≤ length [3; 1; 2; 1; 3] ∧
  let r := (stable_unique_iterators insertion_sort Nat.ltb Nat.eqb 0 5
              [3; 1; 2; 1; 3]).1 in
  length r ≤ 5 - 0 ∧
  (length r = 5 - 0 ↔ duplicate_free Nat.eqb [3; 1; 2; 1; 3] 0 5).
Proof.
  split; [apply nat_consistent|]. split; [cbn; lia|].
  apply (stable_unique_iterators_length insertion_sort Nat.ltb Nat.eqb
           [3; 1; 2; 1; 3] 0 5 nat_consistent).
  cbn; lia.
Defined.

(** C9.  The position-sort functions only read the container: started on
    any storage, [stable_unique_iterators] and [unstable_unique_iterators]
    hand it back with every element as it was.  The range form of
    [stable_uniquify] does rearrange the storage. *)
Theorem position_sort_read_only :
  (∀ T (I : Inhabited T) (S : StdSort) (comp equalPred : T → T → bool) b e,
     read_only (stable_unique_iterators S comp equalPred b e) ∧
     read_only (unstable_unique_iterators S comp equalPred b e)) ∧
  ¬ read_only (stable_uniquify insertion_sort Nat.ltb Nat.eqb 0 3).
Proof.
  split.
  - intros T I S comp equalPred b e. split; intros m.
    + by rewrite stable_unique_iterators_pure.
    + by rewrite unstable_unique_iterators_pure.
  - intros Hro. specialize (Hro [1; 1; 2]). discriminate Hro.
Qed.

(** C10.  For consistent predicates the stable and the unstable function
    each return exactly one representative per equivalence class of the
    range, so their results have the same length and list the same
    classes: some rearrangement of the stable result is, position by
    position, equal in value to the unstable result.  They differ at most
    in the member chosen: the class of every position that the unstable
    function returns is represented in the stable result by a position
    that is not later.  This holds whichever implementations of
    [std::sort] the two functions run with. *)
Theorem stable_unstable_same_classes {T} `{!Inhabited T} (S1 S2 : StdSort)
    (comp equalPred : T → T → bool) (m : list T) (b e : nat) :
  Consistent comp equalPred → b ≤ e ≤ length m →
  let rs := (stable_unique_iterators S1 comp equalPred b e m).1 in
  let ru := (unstable_unique_iterators S2 comp equalPred b e m).1 in
  one_per_class equalPred m b e rs ∧
  one_per_class equalPred m b e ru ∧
  length rs = length ru ∧
  (∃ r', r' ≡ₚ rs ∧
         Forall2 (λ p q, equalPred (m !!! p) (m !!! q) = true) r' ru) ∧
  (∀ p, p ∈ ru →
     ∃ p', p' ∈ rs ∧ p' ≤ p ∧ equalPred (m !!! p') (m !!! p) = true).
Proof.
  intros Hc Hbe rs ru.
  assert (rs = first_occurrences equalPred m b e) as Hfirst.
  { subst rs.
    by rewrite (stable_unique_iterators_first S1 comp equalPred Hc). }
  assert (representatives equalPred m b e rs) as Hrs.
  { rewrite Hfirst. by apply (first_occurrences_representatives S1 comp). }
  pose proof (unstable_unique_iterators_representatives
    S2 comp equalPred Hc m b e) as Hru. fold ru in Hru.
  destruct (representatives_match comp equalPred Hc m b e rs ru Hrs Hru)
    as (r' & Hperm & HF).
  split; [by apply (representatives_one_per_class comp)|].
  split; [by apply (representatives_one_per_class comp)|].
  split; [by rewrite <-(Forall2_length _ _ _ HF), Hperm|].
  split; [by exists r'|].
  intros p Hp. pose proof (repr_range _ _ _ _ _ Hru p Hp) as Hin.
  destruct (repr_covers _ _ _ _ _ Hrs p Hin) as (p' & Hp' & Heq).
  exists p'. split; [done|]. split; [|done].
  destruct (decide (p' ≤ p)) as [|Hlt]; [done|]. exfalso.
  rewrite Hfirst in Hp'. apply first_occurrences_elem in Hp' as [_ Hp'].
  apply (eq_sym_true _ _ Hc) in Heq. rewrite Hp' in Heq by lia. done.
Qed.

Lemma stable_unstable_same_classes_example :
  Consistent Nat.ltb Nat.eqb ∧ 0 ≤ 5 ≤ length [3; 1; 2; 1; 3] ∧
  let rs := (stable_unique_iterators insertion_sort Nat.ltb Nat.eqb 0 5
               [3; 1; 2; 1; 3]).1 in
  let ru := (unstable_unique_iterators reversing_sort Nat.ltb Nat.eqb 0 5
               [3; 1; 2; 1; 3]).1 in
  one_per_class Nat.eqb [3; 1; 2; 1; 3] 0 5 rs ∧
  one_per_class Nat.eqb [3; 1; 2; 1; 3] 0 5 ru ∧
  length rs = length ru ∧
  (∃ r', r' ≡ₚ rs ∧
         Forall2
           (λ p q, ([3; 1; 2; 1; 3] !!! p =? [3; 1; 2; 1; 3] !!! q) = true)
           r' ru) ∧
  (∀ p, p ∈ ru →
     ∃ p', p' ∈ rs ∧ p' ≤ p ∧
           ([3; 1; 2; 1; 3] !!! p' =? [3; 1; 2; 1; 3] !!! p) = true).
Proof.
  split; [apply nat_consistent|]. split; [cbn; lia|].
  apply (stable_unstable_same_classes insertion_sort reversing_sort
           Nat.ltb Nat.eqb [3; 1; 2; 1; 3] 0 5 nat_consistent).
  cbn; lia.
Defined.

(** ** Further scenarios of the specification *)

(** Scenario 1 does not depend on the implementation of [std::sort]. *)
Example scenario_1_any_sort (S : StdSort) :
  (stable_unique_iterators S Nat.ltb Nat.eqb 0 5 [3; 1; 2; 1; 3]).1 =
  [0; 1; 2].
Proof. by rewrite (stable_unique_iterators_first S _ _ nat_consistent). Qed.

(** Scenario 2: nothing survives of the empty vector. *)
Example scenario_2_empty :
  stable_uniquify_vector_body insertion_sort Nat.ltb Nat.eqb [] = (0, []).
Proof. reflexivity. Qed.

(** Scenario 4: records compared by their first field only.  Of two
    records with the same key the first survives, and the other fields of
    the second are dropped with it. *)
Example scenario_4_projection :
  stable_uniquify_vector_body insertion_sort
    (λ a b : nat * nat, a.1 <? b.1) (λ a b, a.1 =? b.1)
    [(7, 1); (4, 2); (7, 3); (4, 4); (5, 5)] =
  (3, [(7, 1); (4, 2); (5, 5)]).
Proof. reflexivity. Qed.

(** With a real comparator the body of the vector overload leaves a
    duplicate-free vector as it is. *)
Lemma stable_uniquify_vector_body_duplicate_free {T} `{!Inhabited T}
    (S : StdSort) (comp equalPred : T → T → bool) (v : list T) :
  Consistent comp equalPred →
  duplicate_free equalPred v 0 (length v) →
  stable_uniquify_vector_body S comp equalPred v = (length v, v).
Proof.
  intros Hc Hdf.
  rewrite (stable_uniquify_vector_body_spec S comp equalPred Hc v).
  rewrite (first_occurrences_duplicate_free equalPred v 0 (length v) Hdf).
  by rewrite Nat.sub_0_r, fmap_lookup_total_seq, length_seq.
Qed.

(** * Further properties of the header

    What the functions do when [equalPred] need not agree with [comp], and
    how they behave on particular shapes of input.  The lemmas of the
    first section are facts about the definitions and ask nothing of the
    predicates; the theorems about the code assume that [comp] is a strict
    weak ordering, as [std::stable_sort] requires, and a range of the
    container. *)

Lemma sorted_in_range_sublist (r : list nat) b n :
  StronglySorted lt r → (∀ p, p ∈ r → b ≤ p < b + n) →
  r `sublist_of` seq b n.
Proof.
  revert r b. induction n as [|n IH]; intros r b Hs Hr.
  { destruct r as [|p r]; [done|]. specialize (Hr p ltac:(by left)). lia. }
  cbn. destruct r as [|p r]; [apply sublist_nil_l|].
  apply StronglySorted_cons in Hs as [Hp Hs]. rewrite Forall_forall in Hp.
  destruct (decide (p = b)) as [->|Hne].
  - apply sublist_skip, IH; [done|]. intros q Hq.
    specialize (Hp q Hq). specialize (Hr q ltac:(by right)). lia.
  - apply sublist_cons, IH.
    + apply StronglySorted_cons. by rewrite Forall_forall.
    + intros q [->|Hq]%elem_of_cons.
      * specialize (Hr p ltac:(by left)). lia.
      * specialize (Hp q Hq). pose proof (Hr p ltac:(by left)).
        specialize (Hr q ltac:(by right)). lia.
Qed.

Lemma range_split {A} (l : list A) b e :
  b ≤ e → l = take b l ++ take (e - b) (drop b l) ++ drop e l.
Proof.
  intros Hbe.
  replace (drop e l) with (drop (e - b) (drop b l))
    by (rewrite drop_drop; f_equal; lia).
  by rewrite !take_drop.
Qed.

Lemma fmap_lookup_total_range {A} `{!Inhabited A} (m : list A) b e :
  b ≤ e ≤ length m →
  (λ p, m !!! p) <$> seq b (e - b) = take (e - b) (drop b m).
Proof.
  intros Hbe. apply list_eq_lookup_total.
  { rewrite length_fmap, length_seq, length_take, length_drop. lia. }
  intros i Hi. rewrite length_fmap, length_seq in Hi.
  rewrite (list_lookup_total_fmap (λ p, m !!! p) (seq b (e - b)) i)
    by (by rewrite length_seq).
  by rewrite lookup_total_seq_lt, lookup_total_take_lt, lookup_total_drop.
Qed.

Section any_predicates.
Context {T : Type} `{!Inhabited T}.
Context (comp equalPred : T → T → bool).

(** The iterator vector after [std::stable_sort] and [std::unique]. *)
Lemma collapsed_positions (m : list T) b e :
  let u := unique_run (λ p q, equalPred (m !!! p) (m !!! q))
             (sort_by (λ p q, comp (m !!! p) (m !!! q)) (seq b (e - b))) in
  NoDup u ∧ (∀ p, p ∈ u → b ≤ p < e) ∧ length u ≤ e - b ∧ (u = [] ↔ e ≤ b).
Proof.
  intros u.
  set (s := sort_by (λ p q, comp (m !!! p) (m !!! q)) (seq b (e - b))) in *.
  assert (s ≡ₚ seq b (e - b)) as Hperm by apply sort_by_perm.
  pose proof (unique_run_sublist (λ p q, equalPred (m !!! p) (m !!! q)) s)
    as Hsub. fold u in Hsub.
  split; [|split; [|split]].
  - eapply sublist_NoDup; [|exact Hsub]. rewrite Hperm. apply NoDup_seq.
  - intros p Hp. apply (elem_of_sublist _ _ _ Hp) in Hsub.
    rewrite Hperm in Hsub. apply elem_of_seq in Hsub. lia.
  - apply sublist_length in Hsub.
    by rewrite (Permutation_length Hperm), length_seq in Hsub.
  - apply Permutation_length in Hperm. rewrite length_seq in Hperm.
    subst u. destruct s as [|x s]; cbn in *.
    + split; [lia|done].
    + destruct (unique_by_head (λ p q, equalPred (m !!! p) (m !!! q)) x s)
        as [r ->]. split; [done|lia].
Qed.

(** The positions that survive. *)
Lemma stable_positions_any (S : StdSort) (m : list T) b e :
  let r := (stable_unique_iterators S comp equalPred b e m).1 in
  StronglySorted lt r ∧
  (∀ p, p ∈ r → b ≤ p < e) ∧
  length r ≤ e - b ∧
  (r = [] ↔ e ≤ b).
Proof.
  intros r. subst r. rewrite stable_unique_iterators_pure. cbn [fst].
  destruct (collapsed_positions m b e) as (Hnd & Hin & Hlen & Hnil).
  set (u := unique_run _ _) in *.
  pose proof (sort_fn_perm S nat Nat.ltb u nat_ltb_swo) as Hr.
  split; [|split; [|split]].
  - apply sorted_NoDup_strict; [apply sort_fn_sorted, nat_ltb_swo|].
    by rewrite Hr.
  - intros p Hp. rewrite Hr in Hp. by apply Hin.
  - by rewrite (Permutation_length Hr).
  - rewrite <-Hnil. split; intros Hn.
    + rewrite Hn in Hr. by apply Permutation_nil_l in Hr.
    + rewrite Hn in Hr |- *. by apply Permutation_nil_r in Hr.
Qed.

(** The last sort orders distinct positions. *)
Lemma stable_sort_independent_any (S1 S2 : StdSort) (m : list T) b e :
  stable_unique_iterators S1 comp equalPred b e m =
    stable_unique_iterators S2 comp equalPred b e m ∧
  stable_uniquify S1 comp equalPred b e m =
    stable_uniquify S2 comp equalPred b e m.
Proof.
  assert (stable_unique_iterators S1 comp equalPred b e m =
          stable_unique_iterators S2 comp equalPred b e m) as Heq.
  { rewrite !stable_unique_iterators_pure. f_equal.
    destruct (collapsed_positions m b e) as (Hnd & _).
    set (u := unique_run _ _) in *.
    pose proof (sort_fn_perm S1 nat Nat.ltb u nat_ltb_swo) as H1.
    pose proof (sort_fn_perm S2 nat Nat.ltb u nat_ltb_swo) as H2.
    apply sorted_positions_unique.
    - apply sort_fn_sorted, nat_ltb_swo.
    - by rewrite H1.
    - apply sorted_NoDup_strict; [apply sort_fn_sorted, nat_ltb_swo|].
      by rewrite H2.
    - intros p. by rewrite H1, H2. }
  split; [done|]. unfold stable_uniquify. unfold_bind. by rewrite Heq.
Qed.

(** The range form. *)
Lemma stable_uniquify_any_spec (S : StdSort)
    (m : list T) b e :
  b ≤ e ≤ length m →
  let res := stable_uniquify S comp equalPred b e m in
  let uniqIts := (stable_unique_iterators S comp equalPred b e m).1 in
  res.1 = b + length uniqIts ∧
  b ≤ res.1 ≤ e ∧
  (res.1 = b ↔ e = b) ∧
  take (res.1 - b) (drop b res.2) = (λ p, m !!! p) <$> uniqIts ∧
  take (res.1 - b) (drop b res.2) `sublist_of` take (e - b) (drop b m).
Proof.
  intros Hbe res uniqIts.
  destruct (stable_positions_any S m b e) as (Hs & Hin & Hlen & Hnil). fold uniqIts in Hs, Hin, Hlen, Hnil.
  assert (res = uniquify_loop (e - b) b uniqIts 0 b m) as Hres.
  { subst res uniqIts. unfold stable_uniquify. unfold_bind.
    by rewrite stable_unique_iterators_pure. }
  destruct (uniquify_loop_frame (e - b) b uniqIts 0 b m) as (Hl & _);
    [lia..|].
  destruct (uniquify_loop_gathers (e - b) b uniqIts 0 b m) as (Hr & Hg);
    [lia|lia|lia| | |].
  { intros k k'. by apply StronglySorted_lt_lookup. }
  { intros k Hk.
    assert (uniqIts !!! k ∈ uniqIts) as Hk'
      by (apply list_elem_of_lookup_total_2; lia).
    apply Hin in Hk'. lia. }
  rewrite <-Hres in Hl, Hr, Hg.
  assert (take (res.1 - b) (drop b res.2) = (λ p, m !!! p) <$> uniqIts)
    as Hpre.
  { apply list_eq_lookup_total.
    { rewrite length_take, length_drop, length_fmap. lia. }
    intros i Hi. rewrite length_take, length_drop in Hi.
    rewrite lookup_total_take_lt, lookup_total_drop by lia.
    rewrite (list_lookup_total_fmap (λ p, m !!! p) uniqIts i) by lia.
    specialize (Hg i). rewrite Nat.sub_0_r in Hg. apply Hg. lia. }
  split; [lia|]. split; [lia|]. split; [|split; [done|]].
  - split; intros Hb.
    + assert (uniqIts = []) as Hn by (destruct uniqIts; [done|cbn in *; lia]).
      apply Hnil in Hn. lia.
    + assert (uniqIts = []) as -> by (apply Hnil; lia). cbn in Hr. lia.
  - rewrite Hpre, <-fmap_lookup_total_range by done.
    apply fmap_sublist.
    replace e with (b + (e - b)) in Hin by lia.
    by apply sorted_in_range_sublist.
Qed.
(** The body of the vector overload. *)
Lemma stable_uniquify_vector_body_any (S : StdSort) (v : list T) :
  let r := (stable_unique_iterators S comp equalPred 0 (length v) v).1 in
  stable_uniquify_vector_body S comp equalPred v =
  (length r, (λ p, v !!! p) <$> r).
Proof.
  intros r.
  destruct (stable_uniquify_any_spec S v 0 (length v)) as (Hr & _ & _ & Hpre & _);
    [lia|]. fold r in Hr, Hpre.
  destruct (stable_positions_any S v 0 (length v)) as (_ & _ & Hlen & _).
  fold r in Hlen.
  unfold stable_uniquify_vector_body, erase_after, vector_end, erase.
  unfold_bind. cbn [fst snd].
  destruct (uniquify_loop_frame (length v - 0) 0 r 0 0 v) as (Hl & _);
    [lia..|].
  assert (stable_uniquify S comp equalPred 0 (length v) v =
          uniquify_loop (length v - 0) 0 r 0 0 v) as Hres.
  { unfold stable_uniquify, r. unfold_bind.
    by rewrite stable_unique_iterators_pure. }
  rewrite <-Hres in Hl. rewrite Hr, Nat.sub_0_r, drop_0 in Hpre.
  rewrite Hr. cbn [Nat.add] in *. f_equal.
  unfold vector_erase. by rewrite Hpre, drop_all, app_nil_r.
Qed.

(** X1.  For a strict weak ordering [comp] and any [equalPred], consistent
    with it or not, [stable_unique_iterators] on a range of the container
    returns strictly ascending positions of the range, at most as many as
    the range has, and no position at all only for an empty range. *)
Theorem stable_unique_iterators_positions (S : StdSort) (m : list T) b e :
  StrictWeakOrder comp → b ≤ e ≤ length m →
  let r := (stable_unique_iterators S comp equalPred b e m).1 in
  StronglySorted lt r ∧
  (∀ p, p ∈ r → b ≤ p < e) ∧
  length r ≤ e - b ∧
  (r = [] ↔ e = b).
Proof.
  intros _ Hbe r.
  destruct (stable_positions_any S m b e) as (Hs & Hin & Hlen & Hnil).
  fold r in Hs, Hin, Hlen, Hnil.
  split; [done|]. split; [done|]. split; [done|].
  rewrite Hnil. lia.
Qed.

(** X2.  For a strict weak ordering [comp] and any [equalPred], the result
    of [stable_unique_iterators] on a range of the container, and with it
    all that the range form of [stable_uniquify] does, is the same for
    every implementation of [std::sort]. *)
Theorem stable_functions_sort_independent (S1 S2 : StdSort)
    (m : list T) b e :
  StrictWeakOrder comp → b ≤ e ≤ length m →
  stable_unique_iterators S1 comp equalPred b e m =
    stable_unique_iterators S2 comp equalPred b e m ∧
  stable_uniquify S1 comp equalPred b e m =
    stable_uniquify S2 comp equalPred b e m.
Proof. intros _ _. apply stable_sort_independent_any. Qed.

(** X3.  For a strict weak ordering [comp] and any [equalPred], the range
    form of [stable_uniquify] on a range of the container returns a
    position [r] of the range, [begin] only for an empty range;
    [[begin, r)] then holds the values that stood at the positions
    [stable_unique_iterators] returns, in that order, and these values are
    a subsequence of the original range. *)
Theorem stable_uniquify_range_any_predicates (S : StdSort)
    (m : list T) b e :
  StrictWeakOrder comp → b ≤ e ≤ length m →
  let res := stable_uniquify S comp equalPred b e m in
  let uniqIts := (stable_unique_iterators S comp equalPred b e m).1 in
  res.1 = b + length uniqIts ∧
  b ≤ res.1 ≤ e ∧
  (res.1 = b ↔ e = b) ∧
  take (res.1 - b) (drop b res.2) = (λ p, m !!! p) <$> uniqIts ∧
  take (res.1 - b) (drop b res.2) `sublist_of` take (e - b) (drop b m).
Proof. intros _. apply stable_uniquify_any_spec. Qed.
End any_predicates.

Section consistent_predicates.
Context {T : Type} `{!Inhabited T}.
Context (S : StdSort) (comp equalPred : T → T → bool).
Hypothesis Hc : Consistent comp equalPred.

(** X4.  The range form of [stable_uniquify] partitions the range: behind
    the returned position, up to the end of the range, stand exactly the
    duplicates, that is, the values of the positions that are not the first
    occurrence of their class, in some order. *)
Theorem stable_uniquify_range_discards_duplicates (m : list T) b e :
  b ≤ e ≤ length m →
  let res := stable_uniquify S comp equalPred b e m in
  take (e - res.1) (drop res.1 res.2) ≡ₚ
  (λ p, m !!! p) <$>
    filter (λ p, first_occurrence equalPred m b p = false) (seq b (e - b)).
Proof using Hc.
  intros Hbe res.
  destruct (stable_uniquify_spec S comp equalPred Hc m b e Hbe)
    as (Hres & Hlen & Hpre & Htake & Hdrop & Hperm).
  fold res in Hres, Hlen, Hpre, Htake, Hdrop, Hperm.
  pose proof (first_occurrences_length equalPred m b e) as HF.
  set (F := first_occurrences equalPred m b e) in *.
  rewrite (range_split res.2 b e), (range_split m b e) in Hperm by lia.
  rewrite Htake, Hdrop in Hperm.
  apply Permutation_app_inv_l, Permutation_app_inv_r in Hperm.
  replace (e - b) with (length F + (e - res.1)) in Hperm at 1 by lia.
  rewrite <-take_take_drop, drop_drop, Hpre, <-Hres in Hperm.
  rewrite <-(fmap_lookup_total_range m b e Hbe) in Hperm.
  assert ((λ p, m !!! p) <$> seq b (e - b) ≡ₚ
          ((λ p, m !!! p) <$> F) ++
          ((λ p, m !!! p) <$>
             filter (λ p, ¬ first_occurrence equalPred m b p = true)
               (seq b (e - b)))) as Hsplit.
  { rewrite <-fmap_app. f_equiv. symmetry. apply filter_app_complement. }
  rewrite Hsplit in Hperm. apply Permutation_app_inv_l in Hperm.
  rewrite Hperm. f_equiv. apply reflexive_eq, list_filter_iff.
  intros p. by destruct (first_occurrence equalPred m b p).
Qed.

(** A range without duplicates is left as it is. *)
Lemma stable_uniquify_unchanged (m : list T) b e :
  b ≤ e ≤ length m →
  duplicate_free equalPred m b e →
  stable_uniquify S comp equalPred b e m = (e, m).
Proof using Hc.
  intros Hbe Hdf.
  destruct (stable_uniquify_spec S comp equalPred Hc m b e Hbe)
    as (Hres & Hlen & Hpre & Htake & Hdrop & _).
  rewrite (first_occurrences_duplicate_free equalPred m b e Hdf) in Hres, Hpre.
  rewrite length_seq in Hres, Hpre.
  rewrite (fmap_lookup_total_range m b e Hbe) in Hpre.
  set (res := stable_uniquify S comp equalPred b e m) in *.
  rewrite (surjective_pairing res). f_equal; [lia|].
  rewrite (range_split res.2 b e), (range_split m b e) by lia.
  by rewrite Htake, Hpre, Hdrop, <-range_split by lia.
Qed.

(** X6.  On a range without duplicates [unstable_unique_iterators] returns
    every position of the range, in order, whatever [std::sort] does: there
    it agrees with the stable function. *)
Theorem unstable_unique_iterators_duplicate_free (m : list T) b e :
  duplicate_free equalPred m b e →
  (unstable_unique_iterators S comp equalPred b e m).1 = seq b (e - b) ∧
  (unstable_unique_iterators S comp equalPred b e m).1 =
    (stable_unique_iterators S comp equalPred b e m).1.
Proof using Hc.
  intros Hdf.
  pose proof (unstable_unique_iterators_representatives
    S comp equalPred Hc m b e) as Hr.
  set (r := (unstable_unique_iterators S comp equalPred b e m).1) in *.
  assert (r = seq b (e - b)) as Heq.
  { apply sorted_lt_ext; [apply Hr|apply seq_sorted|].
    intros q. rewrite elem_of_seq. split.
    - intros Hq%(repr_range _ _ _ _ _ Hr). lia.
    - intros Hq.
      destruct (repr_covers _ _ _ _ _ Hr q) as (p & Hp & Hpq); [lia|].
      destruct (decide (p = q)) as [->|Hne]; [done|].
      pose proof (repr_range _ _ _ _ _ Hr p Hp).
      rewrite Hdf in Hpq by (done || lia). done. }
  split; [done|]. rewrite Heq.
  rewrite (stable_unique_iterators_first S comp equalPred Hc). cbn [fst].
  by rewrite first_occurrences_duplicate_free.
Qed.

(** X7.  Survivors do not depend on what follows them: the result of
    [stable_unique_iterators] on a shorter range [[begin, mid)] consists of
    the positions before [mid] of the result on [[begin, end)]. *)
Theorem stable_unique_iterators_prefix (m : list T) b mid e :
  b ≤ mid ≤ e →
  (stable_unique_iterators S comp equalPred b mid m).1 =
  filter (λ p, p < mid) (stable_unique_iterators S comp equalPred b e m).1.
Proof using Hc.
  intros Hbe.
  rewrite !(stable_unique_iterators_first S comp equalPred Hc). cbn [fst].
  apply sorted_lt_ext.
  - apply first_occurrences_sorted.
  - eapply StronglySorted_sublist;
      [apply sublist_filter|apply first_occurrences_sorted].
  - intros p. rewrite list_elem_of_filter, !first_occurrences_elem.
    split; [intros [? ?]|intros [? [? ?]]]; (split; [lia|]);
      (done || (split; [lia|done])).
Qed.
(** X5.  On a range without duplicates the range form of [stable_uniquify]
    changes nothing: it returns [end] and hands the container back as it
    was (every swap it makes exchanges an element with itself). *)
Theorem stable_uniquify_range_duplicate_free (m : list T) b e :
  b ≤ e ≤ length m →
  duplicate_free equalPred m b e →
  stable_uniquify S comp equalPred b e m = (e, m).
Proof using Hc. apply stable_uniquify_unchanged. Qed.

(** X13.  The range form of [stable_uniquify] can be repeated: called
    again on the prefix [[begin, r)] that it returned, it returns [r]
    again and leaves the container as the first call left it. *)
Theorem stable_uniquify_range_twice (m : list T) b e :
  b ≤ e ≤ length m →
  let res := stable_uniquify S comp equalPred b e m in
  stable_uniquify S comp equalPred b res.1 res.2 = res.
Proof using Hc.
  intros Hbe res.
  destruct (stable_uniquify_spec S comp equalPred Hc m b e Hbe)
    as (Hres & Hlen & Hpre & _).
  fold res in Hres, Hlen, Hpre.
  pose proof (first_occurrences_length equalPred m b e) as HF.
  pose proof (first_occurrence_values_duplicate_free comp equalPred Hc m b e)
    as Hdf. cbn zeta in Hdf.
  set (F := first_occurrences equalPred m b e) in *.
  rewrite length_fmap in Hdf.
  rewrite (surjective_pairing res) at 3.
  apply stable_uniquify_unchanged; [lia|].
  intros p q Hp Hq Hne.
  assert (∀ i, i < length F →
    res.2 !!! (b + i) = ((λ p, m !!! p) <$> F) !!! i) as Hlook.
  { intros i Hi.
    by rewrite <-Hpre, lookup_total_take_lt, lookup_total_drop by lia. }
  replace p with (b + (p - b)) by lia. replace q with (b + (q - b)) by lia.
  rewrite !Hlook by lia. apply Hdf; lia.
Qed.
End consistent_predicates.

(** ** Deduplication by a projection *)

Section projection.
Context {T K : Type} `{!Inhabited T, !Inhabited K}.
Context (S : StdSort) (proj : T → K) (compK equalK : K → K → bool).
Hypothesis Hc : Consistent compK equalK.

Lemma first_occurrences_projection (m : list T) b e :
  b ≤ e ≤ length m →
  first_occurrences (λ x y, equalK (proj x) (proj y)) m b e =
  first_occurrences equalK (proj <$> m) b e.
Proof.
  intros Hbe. apply sorted_lt_ext; [apply first_occurrences_sorted..|].
  intros p. rewrite !first_occurrences_elem.
  split; intros [Hp Hfirst]; (split; [done|]); intros q Hq.
  - rewrite !(list_lookup_total_fmap proj m) by lia. by apply Hfirst.
  - specialize (Hfirst q Hq).
    by rewrite !(list_lookup_total_fmap proj m) in Hfirst by lia.
Qed.

(** X8.  Predicates that compare a part [proj x] of every element, like
    the comparison of point positions in the benchmark, deduplicate by
    that part: the same positions survive as in the container of the
    parts, and the parts of the elements that the vector body keeps are
    what it keeps of the container of the parts. *)
Theorem stable_dedup_by_projection (m : list T) b e :
  b ≤ e ≤ length m →
  let comp := λ x y, compK (proj x) (proj y) in
  let equalPred := λ x y, equalK (proj x) (proj y) in
  (stable_unique_iterators S comp equalPred b e m).1 =
    (stable_unique_iterators S compK equalK b e (proj <$> m)).1 ∧
  proj <$> (stable_uniquify_vector_body S comp equalPred m).2 =
    (stable_uniquify_vector_body S compK equalK (proj <$> m)).2.
Proof using Hc.
  intros Hbe comp equalPred.
  pose proof (Consistent_lift proj _ _ Hc) as HcT.
  split.
  - rewrite (stable_unique_iterators_first S comp equalPred HcT).
    rewrite (stable_unique_iterators_first S compK equalK Hc). cbn [fst].
    by apply first_occurrences_projection.
  - clear b e Hbe.
    rewrite (stable_uniquify_vector_body_spec S comp equalPred HcT).
    rewrite (stable_uniquify_vector_body_spec S compK equalK Hc).
    cbn [snd]. rewrite length_fmap.
    rewrite <-(first_occurrences_projection m 0 (length m)) by lia.
    rewrite <-list_fmap_compose. apply list_fmap_ext.
    intros i p Hp%list_elem_of_lookup_2. unfold equalPred in Hp.
    apply first_occurrences_elem in Hp as [Hp _]. cbn.
    by rewrite (list_lookup_total_fmap proj m) by lia.
Qed.
End projection.

(** * The benchmark: [benchmarkUniquify] in [bench.cpp]

    Every block of the benchmark takes its own copy [v] of the input
    vector, removes the duplicates in its own way and reports
    [numUniques].  The blocks are functions of that copy; [posLess] and
    [posEqual] are the two lambdas that compare the positions of points. *)

(** [std::remove_if] with a predicate that carries state from one element
    to the next (here the set of positions seen so far): the elements for
    which the predicate answers [false] are kept, in order. *)
Fixpoint std_remove_if {A St : Type} (pred : A → St → bool * St)
    (l : list A) (s : St) : list A * St :=
  match l with
  | [] => ([], s)
  | x :: l' =>
      let r := pred x s in
      let k := std_remove_if pred l' r.2 in
      (if r.1 then k.1 else x :: k.1, k.2)
  end.

Section benchmark.
Context {T : Type} `{!Inhabited T}.
Context (posLess posEqual : T → T → bool).

(** A comparison of two elements, as the direct sorts receive it. *)
Definition on_values (f : T → T → bool) (a b : T) : M T bool := ret (f a b).

(** An algorithm called on [v.begin(), v.end()]: the sequence it rearranges
    is the vector. *)
Definition on_vector (alg : list T → M T (list T)) : M T unit :=
  λ v, (tt, (alg v v).1).

(** [v.erase(unique(v.begin(), v.end(), pred), v.end())]. *)
Definition unique_erase (pred : T → T → M T bool) : M T unit :=
  λ v, let u := (std_unique pred v v).1 in
       (tt, vector_erase u.1 u.2 (length u.1)).

(** The block "stable_unique_iterators()". *)
Definition bench_stable_unique_iterators (S : StdSort) : M T nat :=
  e ← vector_end;
  its ← stable_unique_iterators S posLess posEqual 0 e;
  ret (length its).

(** The block "unstable_unique_iterators()". *)
Definition bench_unstable_unique_iterators (S : StdSort) : M T nat :=
  e ← vector_end;
  its ← unstable_unique_iterators S posLess posEqual 0 e;
  ret (length its).

(** The block "direct element stable sorting (no indices)". *)
Definition bench_direct_vector_stable_sort : M T nat :=
  on_vector (std_stable_sort (on_values posLess));;
  unique_erase (on_values posEqual);;
  vector_end.

(** The block "direct element unstable sorting (no indices)". *)
Definition bench_direct_vector_unstable_sort (S : StdSort) : M T nat :=
  on_vector (std_sort S (on_values posLess));;
  unique_erase (on_values posEqual);;
  vector_end.

(** The blocks "std::unordered_set" and "phmap::flat_hash_set".  [get0] is
    [get<0>], the position of a point; [seenPositions.insert(pos).second]
    tells whether [pos] was new, and the point is removed when it was
    not.  [numUniques] is the size of the set. *)
Context {K : Type} `{Countable K} (get0 : T → K).

Definition seen_before (point : T) (seenPositions : gset K)
    : bool * gset K :=
  let inserted := bool_decide (get0 point ∉ seenPositions) in
  (negb inserted, {[get0 point]} ∪ seenPositions).

Definition bench_unordered_set : M T nat :=
  λ v, let r := std_remove_if seen_before v ∅ in
       let v' := r.1 ++ drop (length r.1) v in
       (size r.2, vector_erase v' (length r.1) (length v')).

End benchmark.

Example bench_blocks_example :
  let v := [(7, 1); (4, 2); (7, 3); (4, 4); (5, 5)] in
  let less := λ a b : nat * nat, a.1 <? b.1 in
  let equal := λ a b : nat * nat, a.1 =? b.1 in
  bench_stable_unique_iterators less equal insertion_sort v = (3, v) ∧
  bench_unstable_unique_iterators less equal reversing_sort v = (3, v) ∧
  bench_direct_vector_stable_sort less equal v =
    (3, [(4, 2); (5, 5); (7, 1)]) ∧
  bench_direct_vector_unstable_sort less equal reversing_sort v =
    (3, [(4, 4); (5, 5); (7, 3)]) ∧
  bench_unordered_set fst v = (3, [(7, 1); (4, 2); (5, 5)]).
Proof. repeat split; vm_compute; reflexivity. Qed.

(** ** Sorting values and sorting positions *)

Lemma insert_by_fmap {A B} (f : B → A) (lt : A → A → bool) x l :
  f <$> insert_by (λ a b, lt (f a) (f b)) x l = insert_by lt (f x) (f <$> l).
Proof.
  induction l as [|y l IH]; [done|]. cbn.
  destruct (lt (f y) (f x)); [|done]. cbn. by rewrite IH.
Qed.

Lemma sort_by_fmap {A B} (f : B → A) (lt : A → A → bool) l :
  f <$> sort_by (λ a b, lt (f a) (f b)) l = sort_by lt (f <$> l).
Proof.
  induction l as [|x l IH]; [done|].
  change (sort_by lt (f <$> x :: l)) with
    (insert_by lt (f x) (sort_by lt (f <$> l))).
  rewrite <-IH. apply insert_by_fmap.
Qed.

Lemma unique_by_fmap {A B} (f : B → A) (eq : A → A → bool) kept l :
  f <$> unique_by (λ a b, eq (f a) (f b)) kept l =
  unique_by eq (f kept) (f <$> l).
Proof.
  revert kept. induction l as [|x l IH]; intros kept; [done|]. cbn.
  destruct (eq (f kept) (f x)); [apply IH|]. cbn. by rewrite IH.
Qed.

Lemma unique_run_fmap {A B} (f : B → A) (eq : A → A → bool) l :
  f <$> unique_run (λ a b, eq (f a) (f b)) l = unique_run eq (f <$> l).
Proof. destruct l; [done|apply unique_by_fmap]. Qed.

(** Two strictly increasing sequences that list the same classes are equal
    element by element, up to the equality predicate. *)
Lemma strictly_sorted_same_classes {A} (lt eq : A → A → bool) (u1 u2 : list A) :
  Consistent lt eq →
  StronglySorted (λ a b, lt a b = true) u1 →
  StronglySorted (λ a b, lt a b = true) u2 →
  (∀ x, x ∈ u1 → ∃ y, y ∈ u2 ∧ eq x y = true) →
  (∀ y, y ∈ u2 → ∃ x, x ∈ u1 ∧ eq x y = true) →
  Forall2 (λ x y, eq x y = true) u1 u2.
Proof.
  intros Hc Hs1. pose proof (cons_swo _ _ Hc) as Hswo.
  revert u2. induction Hs1 as [|x u1 Hs1 IH Hx]; intros u2 Hs2 H12 H21.
  { destruct u2 as [|y u2]; [constructor|].
    destruct (H21 y) as (? & []%elem_of_nil & _). by left. }
  destruct Hs2 as [|y u2 Hs2 Hy].
  { destruct (H12 x) as (? & []%elem_of_nil & _). by left. }
  rewrite Forall_forall in Hx, Hy.
  assert (eq x y = true) as Hxy.
  { destruct (H12 x ltac:(by left)) as (y0 & Hy0 & Hxy0).
    destruct (H21 y ltac:(by left)) as (x0 & Hx0 & Hx0y).
    apply elem_of_cons in Hy0 as [->|Hy0]; [done|].
    apply elem_of_cons in Hx0 as [->|Hx0]; [done|].
    exfalso.
    apply (eq_true _ _ Hc) in Hxy0 as [Hxy0 Hy0x].
    apply (eq_true _ _ Hc) in Hx0y as [Hx0y Hyx0].
    pose proof (swo_lt_le_trans lt Hswo y y0 x (Hy y0 Hy0) Hxy0) as Hyx.
    pose proof (swo_lt_le_trans lt Hswo x x0 y (Hx x0 Hx0) Hyx0) as Hxy.
    by rewrite (swo_asym lt Hswo x y Hxy) in Hyx. }
  constructor; [done|]. apply IH; [done|..].
  - intros x' Hx'. destruct (H12 x' ltac:(by right)) as (y' & Hy' & Hx'y').
    apply elem_of_cons in Hy' as [->|Hy']; [|by exists y'].
    exfalso. apply (eq_sym_true _ _ Hc) in Hx'y'.
    pose proof (eq_trans_true _ _ Hc _ _ _ Hxy Hx'y') as Hxx'.
    apply (eq_true _ _ Hc) in Hxx' as [Hxx' _].
    by rewrite (Hx x' Hx') in Hxx'.
  - intros y' Hy'. destruct (H21 y' ltac:(by right)) as (x' & Hx' & Hx'y').
    apply elem_of_cons in Hx' as [->|Hx']; [|by exists x'].
    exfalso. apply (eq_sym_true _ _ Hc) in Hxy.
    pose proof (eq_trans_true _ _ Hc _ _ _ Hxy Hx'y') as Hyy'.
    apply (eq_true _ _ Hc) in Hyy' as [Hyy' _].
    by rewrite (Hy y' Hy') in Hyy'.
Qed.

(** ** The sorting blocks of the benchmark *)

Section benchmark_sorting.
Context {T : Type} `{!Inhabited T}.
Context (posLess posEqual : T → T → bool).

Lemma on_values_reads (f : T → T → bool) : reads (on_values f) (λ _, f).
Proof. done. Qed.

Lemma bench_direct_vector_stable_sort_pure (v : list T) :
  let w := unique_run posEqual (sort_by posLess v) in
  bench_direct_vector_stable_sort posLess posEqual v = (length w, w).
Proof.
  intros w. unfold bench_direct_vector_stable_sort, on_vector, unique_erase.
  unfold_bind. unfold vector_end. cbn [fst snd].
  rewrite (std_stable_sort_pure _ _ (on_values_reads posLess)). cbn [fst].
  by destruct (std_unique_erase_pure _ _ (on_values_reads posEqual)
    (sort_by posLess v) (sort_by posLess v)) as [-> _].
Qed.

Lemma bench_direct_vector_unstable_sort_pure (S : StdSort) (v : list T) :
  let w := unique_run posEqual (sort_fn S T posLess v) in
  bench_direct_vector_unstable_sort posLess posEqual S v = (length w, w).
Proof.
  intros w. unfold bench_direct_vector_unstable_sort, on_vector, unique_erase.
  unfold_bind. unfold vector_end, std_sort. cbn [fst snd].
  change (λ a b, (on_values posLess a b v).1) with posLess.
  by destruct (std_unique_erase_pure _ _ (on_values_reads posEqual)
    (sort_fn S T posLess v) (sort_fn S T posLess v)) as [-> _].
Qed.

Lemma bench_stable_unique_iterators_pure (S : StdSort) (v : list T) :
  bench_stable_unique_iterators posLess posEqual S v =
  (length (stable_unique_iterators S posLess posEqual 0 (length v) v).1, v).
Proof.
  unfold bench_stable_unique_iterators, vector_end. unfold_bind.
  cbn [fst snd]. by rewrite stable_unique_iterators_pure.
Qed.

Lemma bench_unstable_unique_iterators_pure (S : StdSort) (v : list T) :
  bench_unstable_unique_iterators posLess posEqual S v =
  (length (unstable_unique_iterators S posLess posEqual 0 (length v) v).1, v).
Proof.
  unfold bench_unstable_unique_iterators, vector_end. unfold_bind.
  cbn [fst snd]. by rewrite unstable_unique_iterators_pure.
Qed.

(** Sorting the values and collapsing them gives the values of the
    positions that the stable function collapses to. *)
Lemma direct_stable_sort_values (S : StdSort) (v : list T) :
  let w := unique_run posEqual (sort_by posLess v) in
  let r := (stable_unique_iterators S posLess posEqual 0 (length v) v).1 in
  w ≡ₚ (λ p, v !!! p) <$> r ∧ length w = length r.
Proof.
  intros w r.
  assert (w = (λ p, v !!! p) <$>
    unique_run (λ p q, posEqual (v !!! p) (v !!! q))
      (sort_by (λ p q, posLess (v !!! p) (v !!! q)) (seq 0 (length v))))
    as Hw.
  { rewrite (unique_run_fmap (λ p, v !!! p) posEqual).
    rewrite (sort_by_fmap (λ p, v !!! p) posLess).
    by rewrite fmap_lookup_total_seq. }
  subst r. rewrite stable_unique_iterators_pure, Nat.sub_0_r. cbn [fst].
  set (u := unique_run _ (sort_by _ (seq 0 (length v)))) in *.
  pose proof (sort_fn_perm S nat Nat.ltb u nat_ltb_swo) as Hr.
  split.
  - by rewrite Hw, Hr.
  - by rewrite Hw, length_fmap, (Permutation_length Hr).
Qed.

(** X9.  For a strict weak ordering [posLess] and any [posEqual], the
    block that sorts the elements themselves with [std::stable_sort]
    reports the same [numUniques] as the block that calls
    [stable_unique_iterators], and it leaves in its vector the elements
    that [stable_uniquify] keeps, in another order: sorted by [posLess].
    The iterator block leaves its vector as it was. *)
Theorem bench_direct_stable_sort_agrees (S : StdSort) (v : list T) :
  StrictWeakOrder posLess →
  let direct := bench_direct_vector_stable_sort posLess posEqual v in
  let iterators := bench_stable_unique_iterators posLess posEqual S v in
  direct.1 = iterators.1 ∧
  direct.1 = length direct.2 ∧
  iterators.2 = v ∧
  direct.2 ≡ₚ (stable_uniquify_vector_body S posLess posEqual v).2 ∧
  StronglySorted (λ a b, posLess b a = false) direct.2.
Proof.
  intros Hswo direct iterators. subst direct iterators.
  rewrite bench_direct_vector_stable_sort_pure.
  rewrite bench_stable_unique_iterators_pure.
  rewrite stable_uniquify_vector_body_any. cbn [fst snd].
  destruct (direct_stable_sort_values S v) as [Hperm Hlen].
  split; [done|]. split; [done|]. split; [done|]. split; [done|].
  eapply StronglySorted_sublist; [apply unique_run_sublist|].
  by apply sort_by_sorted.
Qed.

(** X10.  For consistent predicates the four sorting blocks report the same
    [numUniques], with any implementations of [std::sort]; the two blocks
    that sort the elements themselves leave strictly increasing vectors
    that are equal element by element, up to [posEqual]. *)
Theorem bench_sorting_blocks_agree (S1 S2 S3 : StdSort) (v : list T) :
  Consistent posLess posEqual →
  let n := (bench_stable_unique_iterators posLess posEqual S1 v).1 in
  let stable := bench_direct_vector_stable_sort posLess posEqual v in
  let unstable := bench_direct_vector_unstable_sort posLess posEqual S3 v in
  (bench_unstable_unique_iterators posLess posEqual S2 v).1 = n ∧
  stable.1 = n ∧
  unstable.1 = n ∧
  StronglySorted (λ a b, posLess a b = true) stable.2 ∧
  StronglySorted (λ a b, posLess a b = true) unstable.2 ∧
  Forall2 (λ x y, posEqual x y = true) unstable.2 stable.2.
Proof.
  intros Hc n stable unstable. subst n stable unstable.
  pose proof (cons_swo _ _ Hc) as Hswo.
  rewrite bench_direct_vector_stable_sort_pure.
  rewrite bench_direct_vector_unstable_sort_pure.
  rewrite bench_stable_unique_iterators_pure.
  rewrite bench_unstable_unique_iterators_pure. cbn [fst snd].
  destruct (direct_stable_sort_values S1 v) as [_ Hlen].
  set (w := unique_run posEqual (sort_by posLess v)) in *.
  set (w' := unique_run posEqual (sort_fn S3 T posLess v)).
  assert (StronglySorted (λ a b, posLess a b = true) w) as Hw.
  { apply (unique_run_strict _ _ Hc). by apply sort_by_sorted. }
  assert (StronglySorted (λ a b, posLess a b = true) w') as Hw'.
  { apply (unique_run_strict _ _ Hc). by apply sort_fn_sorted. }
  assert (Forall2 (λ x y, posEqual x y = true) w' w) as HF.
  { apply (strictly_sorted_same_classes posLess); [done..| |].
    - intros x Hx.
      apply (λ H, elem_of_sublist _ _ _ H
        (unique_run_sublist posEqual (sort_fn S3 T posLess v))) in Hx.
      rewrite (sort_fn_perm S3 T posLess v Hswo) in Hx.
      rewrite <-(sort_by_perm posLess v) in Hx.
      destruct (unique_run_covers _ _ Hc _ x Hx) as (y & Hy & Hyx).
      exists y. split; [done|]. by apply (eq_sym_true _ _ Hc).
    - intros y Hy.
      apply (λ H, elem_of_sublist _ _ _ H
        (unique_run_sublist posEqual (sort_by posLess v))) in Hy.
      rewrite (sort_by_perm posLess v) in Hy.
      rewrite <-(sort_fn_perm S3 T posLess v Hswo) in Hy.
      apply (unique_run_covers _ _ Hc _ y Hy). }
  split; [|split; [done|split; [|done]]].
  - pose proof (unstable_unique_iterators_representatives
      S2 posLess posEqual Hc v 0 (length v)) as Hru.
    assert (representatives posEqual v 0 (length v)
      (stable_unique_iterators S1 posLess posEqual 0 (length v) v).1) as Hrs.
    { rewrite (stable_unique_iterators_first S1 posLess posEqual Hc).
      by apply (first_occurrences_representatives S1 posLess). }
    destruct (representatives_match posLess posEqual Hc v 0 (length v)
      _ _ Hrs Hru) as (r' & Hperm & HF').
    by rewrite <-(Forall2_length _ _ _ HF'), Hperm.
  - by rewrite (Forall2_length _ _ _ HF).
Qed.
End benchmark_sorting.

(** ** The hash set blocks of the benchmark *)

Lemma std_remove_if_app {A St} (pred : A → St → bool * St) l1 l2 s :
  std_remove_if pred (l1 ++ l2) s =
  ((std_remove_if pred l1 s).1 ++
     (std_remove_if pred l2 (std_remove_if pred l1 s).2).1,
   (std_remove_if pred l2 (std_remove_if pred l1 s).2).2).
Proof.
  revert s. induction l1 as [|x l1 IH]; intros s; cbn.
  { by destruct (std_remove_if pred l2 s). }
  rewrite IH. cbn. by destruct (pred x s).1.
Qed.

Section notions_split.
Context {T : Type} `{!Inhabited T}.

Lemma first_occurrences_split (eq : T → T → bool) (m : list T) b mid e :
  b ≤ mid ≤ e →
  first_occurrences eq m b e =
  first_occurrences eq m b mid ++
  filter (λ p, first_occurrence eq m b p = true) (seq mid (e - mid)).
Proof.
  intros Hbe. unfold first_occurrences.
  replace (e - b) with ((mid - b) + (e - mid)) by lia.
  rewrite seq_app, filter_app. do 3 f_equal. lia.
Qed.

Lemma first_occurrences_ext (eq eq' : T → T → bool) (m m' : list T) b e :
  (∀ p q, b ≤ p < e → b ≤ q < e →
     eq (m !!! p) (m !!! q) = eq' (m' !!! p) (m' !!! q)) →
  first_occurrences eq m b e = first_occurrences eq' m' b e.
Proof.
  intros Hext. apply sorted_lt_ext; [apply first_occurrences_sorted..|].
  intros p. rewrite !first_occurrences_elem.
  split; intros [Hp Hfirst]; (split; [done|]); intros q Hq.
  - rewrite <-Hext by lia. by apply Hfirst.
  - rewrite Hext by lia. by apply Hfirst.
Qed.
End notions_split.

Section benchmark_hash_set.
Context {T K : Type} `{!Inhabited T} `{Countable K} (get0 : T → K).

Lemma seen_before_elem (l : list T) (s : gset K) k :
  k ∈ (std_remove_if (seen_before get0) l s).2 ↔ k ∈ s ∨ k ∈ get0 <$> l.
Proof.
  revert s. induction l as [|x l IH]; intros s; cbn.
  { rewrite elem_of_nil. tauto. }
  rewrite IH, elem_of_union, elem_of_singleton, elem_of_cons. tauto.
Qed.

Lemma seen_before_size (l : list T) (s : gset K) :
  size (std_remove_if (seen_before get0) l s).2 =
  size s + length (std_remove_if (seen_before get0) l s).1.
Proof.
  revert s. induction l as [|x l IH]; intros s; cbn; [lia|].
  rewrite IH. destruct (decide (get0 x ∈ s)) as [Hin|Hin].
  - rewrite bool_decide_eq_false_2 by tauto. cbn.
    by rewrite (subseteq_union_1_L {[get0 x]} s)
      by (by apply singleton_subseteq_l).
  - rewrite bool_decide_eq_true_2 by done. cbn.
    rewrite size_union, size_singleton by (by apply disjoint_singleton_l).
    lia.
Qed.

(** The points that the hash set lets through are the points at the
    first-occurrence positions, for the equality of their positions. *)
Lemma seen_before_first_occurrences (v : list T) :
  (std_remove_if (seen_before get0) v ∅).1 =
  (λ p, v !!! p) <$>
    first_occurrences (λ x y, bool_decide (get0 x = get0 y)) v 0 (length v).
Proof.
  induction v as [|x v IH] using rev_ind; [done|].
  set (keyEqual := λ x y : T, bool_decide (get0 x = get0 y)) in *.
  rewrite std_remove_if_app, length_app. cbn [fst snd length].
  rewrite (first_occurrences_split keyEqual _ 0 (length v)) by lia.
  rewrite fmap_app. f_equal.
  - rewrite IH.
    rewrite (first_occurrences_ext keyEqual keyEqual (v ++ [x]) v).
    + apply list_fmap_ext. intros i p Hp%list_elem_of_lookup_2.
      apply first_occurrences_elem in Hp as [Hp _]. cbn.
      by rewrite lookup_total_app_l by lia.
    + intros p q Hp Hq. by rewrite !lookup_total_app_l by lia.
  - replace (length v + 1 - length v) with 1 by lia. cbn [seq].
    assert (first_occurrence keyEqual (v ++ [x]) 0 (length v) = true ↔
            get0 x ∉ (std_remove_if (seen_before get0) v ∅).2) as Hnew.
    { rewrite first_occurrence_true, seen_before_elem.
      rewrite list_elem_of_fmap. unfold keyEqual. split.
      - intros Hfirst [[]%elem_of_empty|(y & Hy & Hin)].
        apply list_elem_of_lookup_total in Hin as (q & Hq & <-).
        specialize (Hfirst q ltac:(lia)).
        rewrite lookup_total_app_l in Hfirst by lia.
        rewrite lookup_total_app_r, Nat.sub_diag in Hfirst by lia.
        cbn in Hfirst. by apply bool_decide_eq_false in Hfirst.
      - intros Hnot q Hq. apply bool_decide_eq_false. intros Heq.
        apply Hnot. right. exists (v !!! q).
        rewrite lookup_total_app_l in Heq by lia.
        rewrite lookup_total_app_r, Nat.sub_diag in Heq by lia.
        split; [done|]. apply list_elem_of_lookup_total_2. lia. }
    rewrite filter_cons, filter_nil. cbn.
    destruct (decide (get0 x ∈ (std_remove_if (seen_before get0) v ∅).2))
      as [Hin|Hin].
    + rewrite bool_decide_eq_false_2 by tauto. cbn.
      rewrite decide_False; [done|]. rewrite Hnew. tauto.
    + rewrite bool_decide_eq_true_2 by done. cbn.
      rewrite decide_True by (by apply Hnew). cbn.
      by rewrite lookup_total_app_r, Nat.sub_diag by lia.
Qed.

(** X11.  When [posEqual] is the equality of the positions [get0] of two
    points and is consistent with [posLess], the hash set block leaves the
    same vector as the vector form of [stable_uniquify] would, and its
    [numUniques], the size of the set, is the position that form returns
    and the [numUniques] of the [stable_unique_iterators] block. *)
Theorem bench_unordered_set_agrees (S : StdSort)
    (posLess posEqual : T → T → bool) (v : list T) :
  Consistent posLess posEqual →
  (∀ x y, posEqual x y = true ↔ get0 x = get0 y) →
  bench_unordered_set get0 v =
    stable_uniquify_vector_body S posLess posEqual v ∧
  (bench_unordered_set get0 v).1 =
    (bench_stable_unique_iterators posLess posEqual S v).1.
Proof.
  intros Hc Hkey.
  assert (bench_unordered_set get0 v =
          stable_uniquify_vector_body S posLess posEqual v) as Heq.
  { rewrite (stable_uniquify_vector_body_spec S posLess posEqual Hc).
    unfold bench_unordered_set.
    pose proof (seen_before_size v ∅) as Hsize.
    rewrite size_empty in Hsize. rewrite Hsize.
    rewrite seen_before_first_occurrences.
    rewrite (first_occurrences_ext _ posEqual v v).
    - rewrite length_fmap. f_equal. unfold vector_erase.
      rewrite take_app_length' by (by rewrite length_fmap).
      by rewrite drop_all, app_nil_r.
    - intros p q _ _.
      destruct (posEqual (v !!! p) (v !!! q)) eqn:Hpq.
      + by apply bool_decide_eq_true, Hkey.
      + apply bool_decide_eq_false. intros ?%Hkey. congruence. }
  split; [done|]. rewrite Heq.
  rewrite (stable_uniquify_vector_body_spec S posLess posEqual Hc).
  rewrite bench_stable_unique_iterators_pure.
  by rewrite (stable_unique_iterators_first S posLess posEqual Hc).
Qed.
End benchmark_hash_set.

(** X12.  For a strict weak ordering [comp] and any [equalPred], the body
    of the vector overload returns the new size of the vector and leaves a
    subsequence of the original vector, which is empty only if the
    original was. *)
Theorem stable_uniquify_vector_body_subsequence {T} `{!Inhabited T}
    (S : StdSort) (comp equalPred : T → T → bool) (v : list T) :
  StrictWeakOrder comp →
  let res := stable_uniquify_vector_body S comp equalPred v in
  res.1 = length res.2 ∧
  res.2 `sublist_of` v ∧
  (res.2 = [] ↔ v = []).
Proof.
  intros _ res. subst res. rewrite stable_uniquify_vector_body_any.
  cbn [fst snd].
  destruct (stable_positions_any comp equalPred S v 0 (length v))
    as (Hs & Hin & _ & Hnil).
  set (r := (stable_unique_iterators S comp equalPred 0 (length v) v).1) in *.
  split; [by rewrite length_fmap|]. split.
  - assert (r `sublist_of` seq 0 (length v)) as Hsub.
    { apply sorted_in_range_sublist; [done|]. intros p Hp%Hin. lia. }
    apply (fmap_sublist (λ p, v !!! p)) in Hsub.
    by rewrite fmap_lookup_total_seq in Hsub.
  - split.
    + intros Hn%fmap_nil_inv. apply Hnil in Hn. destruct v; [done|cbn in Hn; lia].
    + intros ->. assert (r = []) as -> by (apply Hnil; cbn; lia). done.
Qed.

(** ** Instances of the further properties *)

Lemma duplicate_free_1234 : duplicate_free Nat.eqb [1; 2; 3; 4] 0 4.
Proof.
  intros p q Hp Hq Hne.
  assert (p ∈ seq 0 4) as Hp' by (apply elem_of_seq; lia).
  assert (q ∈ seq 0 4) as Hq' by (apply elem_of_seq; lia).
  cbn in Hp', Hq'. rewrite !elem_of_cons, elem_of_nil in Hp', Hq'.
  destruct Hp' as [->|[->|[->|[->|[]]]]], Hq' as [->|[->|[->|[->|[]]]]];
    done.
Qed.

Lemma fst_consistent :
  Consistent (λ a b : nat * nat, a.1 <? b.1) (λ a b, a.1 =? b.1).
Proof. apply (Consistent_lift fst Nat.ltb Nat.eqb nat_consistent). Qed.

(** An equality predicate that does not agree with [Nat.ltb]: two numbers
    are equal when they have the same parity. *)
Definition same_parity (a b : nat) : bool :=
  Bool.eqb (Nat.even a) (Nat.even b).

Lemma stable_unique_iterators_positions_example :
  StrictWeakOrder Nat.ltb ∧ 1 ≤ 6 ≤ length [9; 3; 1; 1; 2; 3; 1; 2] ∧
  let r := (stable_unique_iterators insertion_sort Nat.ltb same_parity 1 6
              [9; 3; 1; 1; 2; 3; 1; 2]).1 in
  StronglySorted lt r ∧
  (∀ p, p ∈ r → 1 ≤ p < 6) ∧
  length r ≤ 6 - 1 ∧
  (r = [] ↔ 6 = 1).
Proof.
  split; [apply nat_ltb_swo|]. split; [cbn; lia|].
  apply (stable_unique_iterators_positions Nat.ltb same_parity
           insertion_sort [9; 3; 1; 1; 2; 3; 1; 2] 1 6 nat_ltb_swo).
  cbn; lia.
Defined.

Lemma stable_functions_sort_independent_example :
  StrictWeakOrder Nat.ltb ∧ 1 ≤ 6 ≤ length [9; 3; 1; 1; 2; 3; 1; 2] ∧
  stable_unique_iterators insertion_sort Nat.ltb same_parity 1 6
    [9; 3; 1; 1; 2; 3; 1; 2] =
  stable_unique_iterators reversing_sort Nat.ltb same_parity 1 6
    [9; 3; 1; 1; 2; 3; 1; 2] ∧
  stable_uniquify insertion_sort Nat.ltb same_parity 1 6
    [9; 3; 1; 1; 2; 3; 1; 2] =
  stable_uniquify reversing_sort Nat.ltb same_parity 1 6
    [9; 3; 1; 1; 2; 3; 1; 2].
Proof.
  split; [apply nat_ltb_swo|]. split; [cbn; lia|].
  apply (stable_functions_sort_independent Nat.ltb same_parity
           insertion_sort reversing_sort [9; 3; 1; 1; 2; 3; 1; 2] 1 6
           nat_ltb_swo).
  cbn; lia.
Defined.

Lemma stable_uniquify_range_any_predicates_example :
  StrictWeakOrder Nat.ltb ∧ 1 ≤ 6 ≤ length [9; 3; 1; 1; 2; 3; 1; 2] ∧
  let res := stable_uniquify insertion_sort Nat.ltb same_parity 1 6
               [9; 3; 1; 1; 2; 3; 1; 2] in
  let uniqIts := (stable_unique_iterators insertion_sort Nat.ltb same_parity
                    1 6 [9; 3; 1; 1; 2; 3; 1; 2]).1 in
  res.1 = 1 + length uniqIts ∧
  1 ≤ res.1 ≤ 6 ∧
  (res.1 = 1 ↔ 6 = 1) ∧
  take (res.1 - 1) (drop 1 res.2) =
    (λ p, [9; 3; 1; 1; 2; 3; 1; 2] !!! p) <$> uniqIts ∧
  take (res.1 - 1) (drop 1 res.2) `sublist_of`
    take (6 - 1) (drop 1 [9; 3; 1; 1; 2; 3; 1; 2]).
Proof.
  split; [apply nat_ltb_swo|]. split; [cbn; lia|].
  apply (stable_uniquify_range_any_predicates Nat.ltb same_parity
           insertion_sort [9; 3; 1; 1; 2; 3; 1; 2] 1 6 nat_ltb_swo).
  cbn; lia.
Defined.

Lemma stable_uniquify_vector_body_subsequence_example :
  StrictWeakOrder Nat.ltb ∧
  let res := stable_uniquify_vector_body insertion_sort Nat.ltb same_parity
               [3; 1; 2; 1; 3] in
  res.1 = length res.2 ∧
  res.2 `sublist_of` [3; 1; 2; 1; 3] ∧
  (res.2 = [] ↔ [3; 1; 2; 1; 3] = []).
Proof.
  split; [apply nat_ltb_swo|].
  apply (stable_uniquify_vector_body_subsequence insertion_sort
           Nat.ltb same_parity [3; 1; 2; 1; 3] nat_ltb_swo).
Defined.

Lemma stable_uniquify_range_discards_duplicates_example :
  Consistent Nat.ltb Nat.eqb ∧ 0 ≤ 5 ≤ length [3; 1; 2; 1; 3] ∧
  let res := stable_uniquify insertion_sort Nat.ltb Nat.eqb 0 5
               [3; 1; 2; 1; 3] in
  take (5 - res.1) (drop res.1 res.2) ≡ₚ [1; 3].
Proof.
  split; [apply nat_consistent|]. split; [cbn; lia|].
  apply (stable_uniquify_range_discards_duplicates insertion_sort
           Nat.ltb Nat.eqb nat_consistent [3; 1; 2; 1; 3] 0 5).
  cbn; lia.
Defined.

Lemma stable_uniquify_range_duplicate_free_example :
  Consistent Nat.ltb Nat.eqb ∧ 0 ≤ 4 ≤ length [1; 2; 3; 4] ∧
  duplicate_free Nat.eqb [1; 2; 3; 4] 0 4 ∧
  stable_uniquify insertion_sort Nat.ltb Nat.eqb 0 4 [1; 2; 3; 4] =
    (4, [1; 2; 3; 4]).
Proof.
  split; [apply nat_consistent|]. split; [cbn; lia|].
  split; [apply duplicate_free_1234|].
  apply (stable_uniquify_range_duplicate_free insertion_sort
           Nat.ltb Nat.eqb nat_consistent [1; 2; 3; 4] 0 4).
  - cbn; lia.
  - apply duplicate_free_1234.
Defined.

Lemma unstable_unique_iterators_duplicate_free_example :
  Consistent Nat.ltb Nat.eqb ∧
  duplicate_free Nat.eqb [1; 2; 3; 4] 0 4 ∧
  (unstable_unique_iterators reversing_sort Nat.ltb Nat.eqb 0 4
     [1; 2; 3; 4]).1 = seq 0 (4 - 0) ∧
  (unstable_unique_iterators reversing_sort Nat.ltb Nat.eqb 0 4
     [1; 2; 3; 4]).1 =
  (stable_unique_iterators reversing_sort Nat.ltb Nat.eqb 0 4
     [1; 2; 3; 4]).1.
Proof.
  split; [apply nat_consistent|]. split; [apply duplicate_free_1234|].
  apply (unstable_unique_iterators_duplicate_free reversing_sort
           Nat.ltb Nat.eqb nat_consistent [1; 2; 3; 4] 0 4).
  apply duplicate_free_1234.
Defined.

Lemma stable_unique_iterators_prefix_example :
  Consistent Nat.ltb Nat.eqb ∧ 0 ≤ 2 ≤ 5 ∧
  (stable_unique_iterators insertion_sort Nat.ltb Nat.eqb 0 2
     [3; 1; 2; 1; 3]).1 =
  filter (λ p, p < 2)
    (stable_unique_iterators insertion_sort Nat.ltb Nat.eqb 0 5
       [3; 1; 2; 1; 3]).1.
Proof.
  split; [apply nat_consistent|]. split; [lia|].
  apply (stable_unique_iterators_prefix insertion_sort
           Nat.ltb Nat.eqb nat_consistent [3; 1; 2; 1; 3] 0 2 5).
  lia.
Defined.

Lemma stable_dedup_by_projection_example :
  Consistent Nat.ltb Nat.eqb ∧ 0 ≤ 3 ≤ length [(7, 1); (4, 2); (7, 3)] ∧
  let comp := λ x y : nat * nat, x.1 <? y.1 in
  let equalPred := λ x y : nat * nat, x.1 =? y.1 in
  (stable_unique_iterators insertion_sort comp equalPred 0 3
     [(7, 1); (4, 2); (7, 3)]).1 =
    (stable_unique_iterators insertion_sort Nat.ltb Nat.eqb 0 3
       (fst <$> [(7, 1); (4, 2); (7, 3)])).1 ∧
  fst <$> (stable_uniquify_vector_body insertion_sort comp equalPred
             [(7, 1); (4, 2); (7, 3)]).2 =
    (stable_uniquify_vector_body insertion_sort Nat.ltb Nat.eqb
       (fst <$> [(7, 1); (4, 2); (7, 3)])).2.
Proof.
  split; [apply nat_consistent|]. split; [cbn; lia|].
  apply (stable_dedup_by_projection insertion_sort fst Nat.ltb Nat.eqb
           nat_consistent [(7, 1); (4, 2); (7, 3)] 0 3).
  cbn; lia.
Defined.

Lemma bench_direct_stable_sort_agrees_example :
  StrictWeakOrder Nat.ltb ∧
  let direct := bench_direct_vector_stable_sort Nat.ltb same_parity
                  [3; 1; 2; 1; 3] in
  let iterators := bench_stable_unique_iterators Nat.ltb same_parity
                     insertion_sort [3; 1; 2; 1; 3] in
  direct.1 = iterators.1 ∧
  direct.1 = length direct.2 ∧
  iterators.2 = [3; 1; 2; 1; 3] ∧
  direct.2 ≡ₚ (stable_uniquify_vector_body insertion_sort Nat.ltb
                 same_parity [3; 1; 2; 1; 3]).2 ∧
  StronglySorted (λ a b, (b <? a) = false) direct.2.
Proof.
  split; [apply nat_ltb_swo|].
  apply (bench_direct_stable_sort_agrees Nat.ltb same_parity insertion_sort
           [3; 1; 2; 1; 3] nat_ltb_swo).
Defined.

Lemma bench_sorting_blocks_agree_example :
  Consistent Nat.ltb Nat.eqb ∧
  let n := (bench_stable_unique_iterators Nat.ltb Nat.eqb insertion_sort
              [3; 1; 2; 1; 3]).1 in
  let stable := bench_direct_vector_stable_sort Nat.ltb Nat.eqb
                  [3; 1; 2; 1; 3] in
  let unstable := bench_direct_vector_unstable_sort Nat.ltb Nat.eqb
                    reversing_sort [3; 1; 2; 1; 3] in
  (bench_unstable_unique_iterators Nat.ltb Nat.eqb reversing_sort
     [3; 1; 2; 1; 3]).1 = n ∧
  stable.1 = n ∧
  unstable.1 = n ∧
  StronglySorted (λ a b, (a <? b) = true) stable.2 ∧
  StronglySorted (λ a b, (a <? b) = true) unstable.2 ∧
  Forall2 (λ x y, (x =? y) = true) unstable.2 stable.2.
Proof.
  split; [apply nat_consistent|].
  apply (bench_sorting_blocks_agree Nat.ltb Nat.eqb
           insertion_sort reversing_sort reversing_sort [3; 1; 2; 1; 3]
           nat_consistent).
Defined.

Lemma bench_unordered_set_agrees_example :
  Consistent (λ a b : nat * nat, a.1 <? b.1) (λ a b, a.1 =? b.1) ∧
  (∀ x y : nat * nat, (x.1 =? y.1) = true ↔ x.1 = y.1) ∧
  bench_unordered_set fst [(7, 1); (4, 2); (7, 3); (4, 4); (5, 5)] =
    stable_uniquify_vector_body insertion_sort
      (λ a b : nat * nat, a.1 <? b.1) (λ a b, a.1 =? b.1)
      [(7, 1); (4, 2); (7, 3); (4, 4); (5, 5)] ∧
  (bench_unordered_set fst [(7, 1); (4, 2); (7, 3); (4, 4); (5, 5)]).1 =
    (bench_stable_unique_iterators
       (λ a b : nat * nat, a.1 <? b.1) (λ a b, a.1 =? b.1) insertion_sort
       [(7, 1); (4, 2); (7, 3); (4, 4); (5, 5)]).1.
Proof.
  split; [apply fst_consistent|].
  split; [intros x y; apply Nat.eqb_eq|].
  apply (bench_unordered_set_agrees fst insertion_sort
           (λ a b : nat * nat, a.1 <? b.1) (λ a b, a.1 =? b.1)
           [(7, 1); (4, 2); (7, 3); (4, 4); (5, 5)] fst_consistent).
  intros x y. apply Nat.eqb_eq.
Defined.

Lemma stable_uniquify_range_twice_example :
  Consistent Nat.ltb Nat.eqb ∧ 1 ≤ 6 ≤ length [9; 3; 1; 1; 2; 3; 1; 2] ∧
  let res := stable_uniquify insertion_sort Nat.ltb Nat.eqb 1 6
               [9; 3; 1; 1; 2; 3; 1; 2] in
  stable_uniquify insertion_sort Nat.ltb Nat.eqb 1 res.1 res.2 = res.
Proof.
  split; [apply nat_consistent|]. split; [cbn; lia|].
  apply (stable_uniquify_range_twice insertion_sort Nat.ltb Nat.eqb
           nat_consistent [9; 3; 1; 1; 2; 3; 1; 2] 1 6).
  cbn; lia.
Defined.
